(** * HashMap (task1/task1.h): a shallow embedding and its verification

    The class template [HashMap<KeyType, ValueType, Hash>] is a separately
    chained hash table: a [std::vector] of [std::list]s of pairs, a live
    entry counter and a hash functor.

    Modelling conventions.
    - [std::vector<std::list<MyPair>>] is a list of lists; positional access
      uses stdpp's lookup and insert.
    - [size_t] values are natural numbers.  The counter is only incremented
      after a list node was allocated and only decremented after a node was
      found, so on every state the class can be in no wrap-around occurs.
    - A [double] is a significand and a binary exponent, and every
      operation rounds its exact result to 53 significant bits, to nearest
      and ties to even, as IEEE 754 binary64 does; the product and the sum
      of [keyCount * MaxLoadFactor + 1] round one after the other, with no
      fused multiply-add and no wider intermediate.  The doubles the class
      computes are counts, their products with the two load factors, and
      one such product plus one: none is negative, subnormal or, for a
      count that fits [size_t], infinite, so the exponent range is left
      unbounded, as the range of [size_t] is.  [static_cast<size_t>]
      truncates.
    - Undefined behaviour ([% 0], indexing past the end, dereferencing a
      singular iterator) and the [std::out_of_range] exception are errors of
      the [result] monad.
    - [insert] and [rehash] are mutually recursive in the source; the
      nesting depth of that recursion is the [fuel] argument.  The loop of
      a range-based [for] over a map takes its number of steps from the
      same argument.

    The file holds the class twice.  The second copy names the counter
    [countOfKeys] and the index function [bucketFromKey], writes the shrink
    test of [erase] with the product spelled out, and its constructors
    insert without sizing the table first; its members otherwise behave
    as those of the first copy.  The embedding follows the first copy. *)

From Stdlib Require Import ZArith QArith Qabs Qround Qpower Lia Lqa SpecFloat.
From stdpp Require Import base tactics option list.

Set Default Proof Using "Type*".

(** ** Outcomes *)

Inductive error : Set :=
  | DivisionByZero      (* hasher(key) % 0 *)
  | OutOfRange          (* throw std::out_of_range *)
  | IndexOutOfBounds    (* data[i] with i >= data.size() *)
  | SingularIterator    (* an iterator that designates no node is dereferenced or advanced *)
  | OutOfFuel.

Inductive result (A : Type) : Type :=
  | Ok (a : A)
  | Err (e : error).
Arguments Ok {A} a.
Arguments Err {A} e.

#[global] Instance result_ret : MRet result := λ A a, Ok a.
#[global] Instance result_bind : MBind result := λ A B f r,
  match r with
  | Ok a => f a
  | Err e => Err e
  end.

(** [for (const auto &x : l) s = body(x, s)] over a container held by value. *)
Fixpoint for_each {A S : Type} (body : A → S → result S) (l : list A) (s : S)
  : result S :=
  match l with
  | [] => Ok s
  | x :: l' => s' ← body x s; for_each body l' s'
  end.

(** [v[i]] on a vector. *)
Definition vec_at {A : Type} (v : list A) (i : nat) : result A :=
  match v !! i with
  | Some x => Ok x
  | None => Err IndexOutOfBounds
  end.

(** ** Double precision arithmetic *)

(** The double [mantissa * 2 ^ exponent], with [0 <= mantissa]. *)
Record double : Set := mkDouble { mantissa : Z; exponent : Z }.

(** [m / 2 ^ s] rounded to the nearest integer, ties to the even one. *)
Definition round_half_even (m s : Z) : Z :=
  let q := (m / 2 ^ s)%Z in
  let r := (m mod 2 ^ s)%Z in
  let half := (2 ^ (s - 1))%Z in
  if (r <? half)%Z then q
  else if (half <? r)%Z then (q + 1)%Z
  else if Z.even q then q else (q + 1)%Z.

(** The double nearest to [m * 2 ^ e]: a significand of more than 53 bits
    loses its low bits by [round_half_even]. *)
Definition round_double (m e : Z) : double :=
  let s := (Z.log2 m - 52)%Z in
  if (s <=? 0)%Z then mkDouble m e
  else mkDouble (round_half_even m s) (e + s).

(** [a * b] *)
Definition double_mul (a b : double) : double :=
  round_double (mantissa a * mantissa b) (exponent a + exponent b).

(** [a + b] *)
Definition double_add (a b : double) : double :=
  let e := Z.min (exponent a) (exponent b) in
  round_double
    (mantissa a * 2 ^ (exponent a - e) + mantissa b * 2 ^ (exponent b - e)) e.

(** [a < b] *)
Definition double_lt (a b : double) : bool :=
  let e := Z.min (exponent a) (exponent b) in
  (mantissa a * 2 ^ (exponent a - e) <? mantissa b * 2 ^ (exponent b - e))%Z.

(** The conversion of an integer to [double]. *)
Definition double_of_Z (z : Z) : double := round_double z 0.

(** The integer part of a double. *)
Definition double_trunc (d : double) : Z :=
  if (0 <=? exponent d)%Z then (mantissa d * 2 ^ exponent d)%Z
  else (mantissa d / 2 ^ (- exponent d))%Z.

(** The rational a double stands for, and the unit roundoff [2 ^ -53]. *)
Definition double_value (d : double) : Q :=
  (inject_Z (mantissa d) * 2 ^ exponent d)%Q.

Definition double_eps : Q := (1 # 9007199254740992)%Q.

(** ** The load factors *)

(** [1.618033988]: the double [0x1.9e3779b646c5ep+0]. *)
Definition MaxLoadFactor : double := mkDouble 7286977265429598 (-52).
Definition MinLoadFactor : double := double_mul MaxLoadFactor MaxLoadFactor.

Definition of_size_t (n : nat) : double := double_of_Z (Z.of_nat n).
Definition to_size_t (d : double) : nat := Z.to_nat (double_trunc d).

(** [static_cast<size_t>(keyCount * MaxLoadFactor + 1)] *)
Definition grown_bucket_count (n : nat) : nat :=
  to_size_t (double_add (double_mul (of_size_t n) MaxLoadFactor) (double_of_Z 1)).

(** [keyCount * MinLoadFactor < bucket.size()] *)
Definition shrink_check (n chain_len : nat) : bool :=
  double_lt (double_mul (of_size_t n) MinLoadFactor) (of_size_t chain_len).

Global Arguments grown_bucket_count : simpl never.
Global Arguments shrink_check : simpl never.
Global Arguments to_size_t : simpl never.
Global Arguments of_size_t : simpl never.
Global Arguments double_add : simpl never.
Global Arguments double_mul : simpl never.
Global Arguments double_lt : simpl never.
Global Arguments double_of_Z : simpl never.

(** The same two expressions by the Standard Library's specification of
    binary64, for comparison on given counts: [None] stands for a result
    that is not a finite non-negative double. *)
Definition binary64_of_Z (z : Z) : spec_float :=
  binary_normalize 53 1024 z 0 false.

Definition binary64_MaxLoadFactor : spec_float :=
  S754_finite false 7286977265429598 (-52).

Definition binary64_trunc (f : spec_float) : option Z :=
  match f with
  | S754_zero _ => Some 0%Z
  | S754_finite false m e => Some (double_trunc (mkDouble (Z.pos m) e))
  | _ => None
  end.

Definition binary64_grown_bucket_count (z : Z) : option Z :=
  binary64_trunc
    (SFadd 53 1024 (SFmul 53 1024 (binary64_of_Z z) binary64_MaxLoadFactor)
       (binary64_of_Z 1)).

Definition binary64_shrink_check (n chain_len : Z) : bool :=
  SFltb
    (SFmul 53 1024 (binary64_of_Z n)
       (SFmul 53 1024 binary64_MaxLoadFactor binary64_MaxLoadFactor))
    (binary64_of_Z chain_len).

Section HashMap.
Context {KeyType ValueType : Type} `{EqDecision KeyType}.
(** [ValueType()] *)
Variable ValueType_default : ValueType.

#[local] Abbreviation MyPair := (KeyType * ValueType)%type.

Record HashMap : Type := mkHashMap {
  hasher : KeyType → nat;
  data : list (list MyPair);
  keyCount : nat
}.

Definition size (m : HashMap) : nat := keyCount m.
Definition empty (m : HashMap) : bool := bool_decide (size m = 0).
Definition capacity (m : HashMap) : nat := length (data m).
Definition hash_function (m : HashMap) : KeyType → nat := hasher m.

Definition bucketIndex (m : HashMap) (key : KeyType) : result nat :=
  if decide (length (data m) = 0) then Err DivisionByZero
  else Ok (hasher m key mod length (data m)).

(** The three chain scans of the source. *)

(** [for (element : bucket) if (element.first == key) return;] *)
Fixpoint chain_mem (key : KeyType) (bucket : list MyPair) : bool :=
  match bucket with
  | [] => false
  | element :: rest =>
      if decide (element.1 = key) then true else chain_mem key rest
  end.

(** [for (element : bucket) if (element.first == key) return element.second;] *)
Fixpoint chain_at (key : KeyType) (bucket : list MyPair) : option ValueType :=
  match bucket with
  | [] => None
  | element :: rest =>
      if decide (element.1 = key) then Some element.2 else chain_at key rest
  end.

(** [it = bucket.begin(); while (it != bucket.end() && it->first != key) ++it;]
    [None] stands for [bucket.end()]. *)
Fixpoint chain_find (key : KeyType) (bucket : list MyPair) : option nat :=
  match bucket with
  | [] => None
  | element :: rest =>
      if decide (element.1 = key) then Some 0 else S <$> chain_find key rest
  end.

(** [clear()] *)
Definition clear (m : HashMap) : HashMap :=
  mkHashMap (hasher m) [[]] 0.

(** [rehash], over the [insert] it calls. *)
Definition rehash_with (ins : MyPair → HashMap → result HashMap)
    (bucketSize : nat) (m : HashMap) : result HashMap :=
  let old_data := data m in
  let m0 := mkHashMap (hasher m) (replicate bucketSize []) 0 in
  for_each (λ bucket, for_each ins bucket) old_data m0.

Fixpoint insert (fuel : nat) (v : MyPair) (m : HashMap) : result HashMap :=
  i ← bucketIndex m v.1;
  bucket ← vec_at (data m) i;
  if chain_mem v.1 bucket then Ok m
  else
    let m1 := mkHashMap (hasher m) (<[i := bucket ++ [v]]> (data m))
                        (S (keyCount m)) in
    if decide (length (data m1) ≤ keyCount m1) then
      match fuel with
      | 0 => Err OutOfFuel
      | S fuel' =>
          rehash_with (insert fuel') (grown_bucket_count (keyCount m1)) m1
      end
    else Ok m1.

Definition rehash (fuel : nat) : nat → HashMap → result HashMap :=
  rehash_with (insert fuel).

(** [erase] *)
Definition erase (fuel : nat) (key : KeyType) (m : HashMap) : result HashMap :=
  i ← bucketIndex m key;
  bucket ← vec_at (data m) i;
  match chain_find key bucket with
  | None => Ok m
  | Some j =>
      let bucket' := delete j bucket in
      let m1 := mkHashMap (hasher m) (<[i := bucket']> (data m))
                          (pred (keyCount m)) in
      if shrink_check (keyCount m1) (length bucket') then
        rehash fuel (grown_bucket_count (keyCount m1)) m1
      else Ok m1
  end.

(** [at]: a [const] member, so the map after the call is the map before
    it, whether a value is returned or [std::out_of_range] is thrown. *)
Definition at_ (key : KeyType) (m : HashMap) : result ValueType * HashMap :=
  (i ← bucketIndex m key;
   bucket ← vec_at (data m) i;
   match chain_at key bucket with
   | Some second => Ok second
   | None => Err OutOfRange
   end, m).

(** ** Iterators

    [bucketIt] is a position in the vector ([data.end()] is its length);
    [elementIt] is a position in that bucket's list, [None] being the
    value-initialised list iterator [{}].  [iterator] and [const_iterator]
    have the same traversal code and share this model. *)

Record iterator : Set := mkIterator {
  bucketIt : nat;
  elementIt : option nat
}.

Definition iterator_eq (a b : iterator) : bool :=
  bool_decide (bucketIt a = bucketIt b) && bool_decide (elementIt a = elementIt b).

Definition end_ (m : HashMap) : iterator :=
  mkIterator (length (data m)) None.

(** [while (it != data.end() && it->begin() == it->end()) ++it;]
    [rest] is the range from [it] to [data.end()]. *)
Fixpoint begin_scan (rest : list (list MyPair)) (it : nat) : nat :=
  match rest with
  | [] => it
  | chain :: rest' =>
      match chain with
      | [] => begin_scan rest' (S it)
      | _ :: _ => it
      end
  end.

Definition begin (m : HashMap) : iterator :=
  let it := begin_scan (data m) 0 in
  if decide (it = length (data m)) then end_ m
  else mkIterator it (Some 0).

(** [while (bucketIt != map->data.end() && elementIt == bucketIt->end())] *)
Fixpoint incr_scan (rest : list (list MyPair)) (b : nat) (e : option nat)
  : iterator :=
  match rest with
  | [] => mkIterator b e
  | chain :: rest' =>
      if decide (e = Some (length chain)) then
        match rest' with
        | [] => incr_scan rest' (S b) None
        | _ :: _ => incr_scan rest' (S b) (Some 0)
        end
      else mkIterator b e
  end.

(** [operator++()] *)
Definition iterator_incr (m : HashMap) (it : iterator) : result iterator :=
  if decide (bucketIt it = length (data m)) then Ok it
  else
    chain ← vec_at (data m) (bucketIt it);
    match elementIt it with
    | Some j =>
        if decide (j < length chain) then
          Ok (incr_scan (drop (bucketIt it) (data m)) (bucketIt it) (Some (S j)))
        else Err SingularIterator
    | None => Err SingularIterator
    end.

(** [operator*()] *)
Definition iterator_deref (m : HashMap) (it : iterator) : result MyPair :=
  chain ← vec_at (data m) (bucketIt it);
  match elementIt it with
  | Some j =>
      match chain !! j with
      | Some element => Ok element
      | None => Err SingularIterator
      end
  | None => Err SingularIterator
  end.

(** [it->second = value] through a mutable iterator or a reference
    returned by [operator[]]. *)
Definition iterator_assign (m : HashMap) (it : iterator) (value : ValueType)
  : result HashMap :=
  element ← iterator_deref m it;
  chain ← vec_at (data m) (bucketIt it);
  Ok (mkHashMap (hasher m)
        (<[bucketIt it := <[default 0 (elementIt it) := (element.1, value)]> chain]>
           (data m))
        (keyCount m)).

(** [for (const auto &element : m) body(element)], that is the loop from
    [m.begin()] to [m.end()] by [operator++]. *)
Fixpoint range_for {S : Type} (fuel : nat) (m : HashMap) (it : iterator)
    (body : MyPair → S → result S) (s : S) : result S :=
  if iterator_eq it (end_ m) then Ok s
  else
    match fuel with
    | 0 => Err OutOfFuel
    | S fuel' =>
        element ← iterator_deref m it;
        s' ← body element s;
        it' ← iterator_incr m it;
        range_for fuel' m it' body s'
    end.

(** The sequence of entries a full traversal visits. *)
Definition traverse (fuel : nat) (m : HashMap) : result (list MyPair) :=
  range_for fuel m (begin m) (λ element acc, Ok (acc ++ [element])) [].

(** [find] *)
Definition find (key : KeyType) (m : HashMap) : result iterator :=
  i ← bucketIndex m key;
  bucket ← vec_at (data m) i;
  match chain_find key bucket with
  | None => Ok (end_ m)
  | Some j => i' ← bucketIndex m key; Ok (mkIterator i' (Some j))
  end.

(** [operator[]]: the new map and the position of the entry whose
    [second] the returned reference designates. *)
Definition indexAccess (fuel : nat) (key : KeyType) (m : HashMap)
  : result (HashMap * iterator) :=
  it ← find key m;
  r ← (if iterator_eq it (end_ m) then
         m1 ← insert fuel (key, ValueType_default) m;
         it1 ← find key m1;
         Ok (m1, it1)
       else Ok (m, it));
  _ ← iterator_deref r.1 r.2;
  Ok r.

(** ** Constructors *)

Definition HashMap_default (_hasher : KeyType → nat) : HashMap :=
  clear (mkHashMap _hasher [] 0).

(** From an iterator range or an initializer list. *)
Definition HashMap_range (fuel : nat) (items : list MyPair)
    (_hasher : KeyType → nat) : result HashMap :=
  let m := clear (mkHashMap _hasher [] 0) in
  m' ← rehash fuel (grown_bucket_count (length items)) m;
  for_each (insert fuel) items m'.

(** Copy construction, and copy assignment from another object. *)
Definition HashMap_copy (fuel : nat) (other : HashMap) : result HashMap :=
  let m := clear (mkHashMap (hasher other) [] 0) in
  m' ← rehash fuel (length (data other)) m;
  range_for fuel other (begin other) (insert fuel) m'.

(** [operator=].  [other] is [None] when the argument is the object itself,
    the case the test [&other != this] singles out. *)
Definition operator_assign (fuel : nat) (other : option HashMap) (this : HashMap)
  : result HashMap :=
  match other with
  | None => Ok this
  | Some other =>
      let m := clear (mkHashMap (hasher other) (data this) (keyCount this)) in
      m' ← rehash fuel (length (data other)) m;
      range_for fuel other (begin other) (insert fuel) m'
  end.

(** [operator!=] of [iterator]: the negation of [operator==]. *)
Definition iterator_neq (a b : iterator) : bool := negb (iterator_eq a b).

(** [operator!=] of [const_iterator], written on the two members. *)
Definition const_iterator_neq (a b : iterator) : bool :=
  negb (bool_decide (bucketIt a = bucketIt b))
  || negb (bool_decide (elementIt a = elementIt b)).

(** ** The constructors of the second copy of the class

    They clear the map and insert, without a [rehash] first. *)

Definition HashMap2_range (fuel : nat) (items : list MyPair)
    (_hasher : KeyType → nat) : result HashMap :=
  let m := clear (mkHashMap _hasher [] 0) in
  for_each (insert fuel) items m.

Definition HashMap2_copy (fuel : nat) (other : HashMap) : result HashMap :=
  let m := clear (mkHashMap (hasher other) [] 0) in
  range_for fuel other (begin other) (insert fuel) m.

End HashMap.

(** ** Abstract view and invariants *)

Section Invariants.
Context {KeyType ValueType : Type} `{EqDecision KeyType}.

#[local] Abbreviation Map := (@HashMap KeyType ValueType).

(** The live entries, bucket by bucket. *)
Definition entries (m : Map) : list (KeyType * ValueType) := mjoin (data m).

(** Every entry sits in the bucket its key hashes to. *)
Definition placed (m : Map) : Prop :=
  ∀ i chain v, data m !! i = Some chain → v ∈ chain →
    hasher m v.1 mod length (data m) = i.

Record inv (m : Map) : Prop := mkInv {
  inv_capacity : 0 < length (data m);
  inv_count : keyCount m = length (entries m);
  inv_unique : NoDup (entries m).*1;
  inv_placed : placed m
}.

(** The invariant of the class between calls of its public members. *)
Definition wf (m : Map) : Prop := inv m ∧ keyCount m < length (data m).

(** [position m it rest]: [it] designates the first entry of [rest], the
    part of the traversal of [m] still ahead, or is [end()] when nothing
    is ahead. *)
Inductive position (m : Map) : iterator → list (KeyType * ValueType) → Prop :=
  | position_end : position m (end_ m) []
  | position_entry b j chain :
      data m !! b = Some chain → j < length chain →
      position m (mkIterator b (Some j))
        (drop j chain ++ mjoin (drop (S b) (data m))).

(** The states a program can bring a map into through the public members.
    Copy assignment from another object builds the same map as copy
    construction; the constructors that do not size the table first build
    what [HashMap_default] followed by [insert]s builds. *)
Inductive reachable (ValueType_default : ValueType) : Map → Prop :=
  | reach_default _hasher :
      reachable ValueType_default (HashMap_default _hasher)
  | reach_range fuel items _hasher m :
      HashMap_range fuel items _hasher = Ok m →
      reachable ValueType_default m
  | reach_copy fuel other m :
      reachable ValueType_default other →
      HashMap_copy fuel other = Ok m →
      reachable ValueType_default m
  | reach_insert fuel v m m' :
      reachable ValueType_default m →
      insert fuel v m = Ok m' →
      reachable ValueType_default m'
  | reach_erase fuel key m m' :
      reachable ValueType_default m →
      erase fuel key m = Ok m' →
      reachable ValueType_default m'
  | reach_indexAccess fuel key m m' it :
      reachable ValueType_default m →
      indexAccess ValueType_default fuel key m = Ok (m', it) →
      reachable ValueType_default m'
  | reach_assign it value m m' :
      reachable ValueType_default m →
      iterator_assign m it value = Ok m' →
      reachable ValueType_default m'
  | reach_clear m :
      reachable ValueType_default m →
      reachable ValueType_default (clear m).

End Invariants.

(** ** Sample maps over [size_t] keys *)

(** [std::hash<size_t>] of the usual standard libraries. *)
Definition identity_hash (key : nat) : nat := key.

Definition sample_default : @HashMap nat nat := HashMap_default identity_hash.

(** After [insert({3, 30})]. *)
Definition sample_one : @HashMap nat nat :=
  mkHashMap identity_hash [[]; [(3, 30)]] 1.

(** After [insert({3, 30}); insert({5, 50}); insert({7, 70})]: one more
    entry fills the table. *)
Definition sample_three : @HashMap nat nat :=
  mkHashMap identity_hash [[]; [(5, 50)]; []; [(3, 30); (7, 70)]] 3.


(** ** A map that grows at 24473167 entries *)

(** The capacity of a grow rehash as the specification words it:
    [floor(size * GROWTH_FACTOR) + 1] on the rationals, with the decimal
    constant of the source for the factor. *)
Definition floor_formula_capacity (size : nat) : Z :=
  (Qfloor (inject_Z (Z.of_nat size) * (1618033988 # 1000000000)) + 1)%Z.

(** [len] entries with the keys [first], [first + 1], ... *)
Definition numbered (first len : nat) : list (nat * nat) :=
  (λ key, (key, 0)) <$> seq first len.

(** A map built from [numbered 0 n1] by the range constructor and filled
    up with [insert] to [n2] entries. *)
Definition filled (n1 n2 : nat) : result (@HashMap nat nat) :=
  m ← HashMap_range 0 (numbered 0 n1) identity_hash;
  for_each (insert 0) (numbered n1 (n2 - n1)) m.

(** * Verification *)

(** ** The resize arithmetic *)

Lemma round_half_even_bound (m s : Z) :
  (0 <= m)%Z -> (1 <= s)%Z ->
  (0 <= round_half_even m s)%Z /\
  (- 2 ^ s <= 2 * (round_half_even m s * 2 ^ s - m) <= 2 ^ s)%Z.
Proof.
  intros Hm Hs. unfold round_half_even.
  assert (Hpow : (0 < 2 ^ s)%Z) by (apply Z.pow_pos_nonneg; lia).
  assert (Hhalf : (2 ^ s = 2 * 2 ^ (s - 1))%Z).
  { rewrite <- Z.pow_succ_r by lia. f_equal. lia. }
  pose proof (Z.div_mod m (2 ^ s) ltac:(lia)) as Hdm.
  pose proof (Z.mod_pos_bound m (2 ^ s) Hpow) as Hrem.
  assert (Hq : (0 <= m / 2 ^ s)%Z) by (apply Z.div_pos; lia).
  set (q := (m / 2 ^ s)%Z) in *. set (r := (m mod 2 ^ s)%Z) in *.
  set (P := (2 ^ s)%Z) in *. set (h := (2 ^ (s - 1))%Z) in *.
  destruct (Z.ltb_spec r h); [nia|].
  destruct (Z.ltb_spec h r); [nia|].
  destruct (Z.even q); nia.
Qed.

Lemma round_double_bound (m e : Z) :
  (0 <= m)%Z ->
  exists m' s, round_double m e = mkDouble m' (e + s) /\ (0 <= s)%Z /\ (0 <= m')%Z /\
    (- m <= 2 ^ 53 * (m' * 2 ^ s - m) <= m)%Z.
Proof.
  intros Hm. unfold round_double.
  destruct (Z.leb_spec (Z.log2 m - 52) 0) as [Hs|Hs].
  - exists m, 0%Z. rewrite Z.add_0_r. split; [done|]. split; [lia|]. split; [done|].
    rewrite Z.pow_0_r. lia.
  - assert (Hpos : (0 < m)%Z).
    { destruct (Z.eq_dec m 0%Z) as [->|]; [|lia]. simpl in Hs. lia. }
    set (s := (Z.log2 m - 52)%Z) in *.
    exists (round_half_even m s), s. split; [done|]. split; [lia|].
    destruct (round_half_even_bound m s Hm ltac:(lia)) as [Hr Hb].
    split; [done|].
    pose proof (Z.log2_spec m Hpos) as [Hlog _].
    assert (Hsplit : (2 ^ Z.log2 m = 2 ^ 53 * 2 ^ (s - 1))%Z).
    { rewrite <- Z.pow_add_r by lia. f_equal. lia. }
    assert (Hhalf : (2 ^ s = 2 * 2 ^ (s - 1))%Z).
    { rewrite <- Z.pow_succ_r by lia. f_equal. lia. }
    assert (Hh : (0 < 2 ^ (s - 1))%Z) by (apply Z.pow_pos_nonneg; lia).
    set (r := round_half_even m s) in *. set (h := (2 ^ (s - 1))%Z) in *.
    set (P := (2 ^ s)%Z) in *. set (L := (2 ^ Z.log2 m)%Z) in *.
    change (2 ^ 53)%Z with 9007199254740992%Z in *.
    generalize dependent (r * P)%Z. intros. lia.
Qed.

Lemma double_value_shift (m e s : Z) :
  (0 <= s)%Z ->
  (double_value (mkDouble m (e + s)) == inject_Z (m * 2 ^ s) * 2 ^ e)%Q.
Proof.
  intros Hs. unfold double_value; simpl.
  rewrite Qpower_plus by done. rewrite inject_Z_mult, Zpower_Qpower by done.
  change (inject_Z 2) with 2%Q. generalize (2 ^ e)%Q (2 ^ s)%Q. intros. ring.
Qed.

Lemma two_power_pos (e : Z) : (0 < 2 ^ e)%Q.
Proof. by apply Qpower_0_lt. Qed.

Lemma round_double_value (m e : Z) :
  (0 <= m)%Z ->
  (0 <= mantissa (round_double m e))%Z /\
  ((1 - double_eps) * (inject_Z m * 2 ^ e) <= double_value (round_double m e))%Q /\
  (double_value (round_double m e) <= (1 + double_eps) * (inject_Z m * 2 ^ e))%Q.
Proof.
  intros Hm. destruct (round_double_bound m e Hm) as (m' & s & -> & Hs & Hm' & Hlo & Hhi).
  split; [done|]. rewrite double_value_shift by done.
  pose proof (two_power_pos e) as HP.
  unfold Z.sub in Hlo, Hhi. rewrite Zle_Qle in Hlo, Hhi.
  rewrite ?inject_Z_mult, ?inject_Z_plus, ?inject_Z_opp in Hlo, Hhi.
  set (X := inject_Z (m' * 2 ^ s)) in *. set (M := inject_Z m) in *.
  change (inject_Z (2 ^ 53)) with (9007199254740992 # 1)%Q in *.
  unfold double_eps. clearbody X M. generalize dependent (2 ^ e)%Q. intros P HP.
  split; nra.
Qed.

Lemma double_value_nonneg (d : double) :
  (0 <= mantissa d)%Z -> (0 <= double_value d)%Q.
Proof.
  intros Hm. unfold double_value. apply Qmult_le_0_compat.
  - change 0%Q with (inject_Z 0). by rewrite <- Zle_Qle.
  - apply Qlt_le_weak, two_power_pos.
Qed.

Lemma double_of_Z_value (z : Z) :
  (0 <= z)%Z ->
  (0 <= mantissa (double_of_Z z))%Z /\
  ((1 - double_eps) * inject_Z z <= double_value (double_of_Z z))%Q /\
  (double_value (double_of_Z z) <= (1 + double_eps) * inject_Z z)%Q.
Proof.
  intros Hz. destruct (round_double_value z 0 Hz) as (Hm & Hlo & Hhi).
  split; [done|]. change (2 ^ 0)%Q with 1%Q in *.
  rewrite Qmult_1_r in Hlo, Hhi. done.
Qed.

Lemma double_mul_value (a b : double) :
  (0 <= mantissa a)%Z -> (0 <= mantissa b)%Z ->
  (0 <= mantissa (double_mul a b))%Z /\
  ((1 - double_eps) * (double_value a * double_value b)
     <= double_value (double_mul a b))%Q /\
  (double_value (double_mul a b)
     <= (1 + double_eps) * (double_value a * double_value b))%Q.
Proof.
  intros Ha Hb. unfold double_mul.
  destruct (round_double_value (mantissa a * mantissa b) (exponent a + exponent b))
    as (Hm & Hlo & Hhi); [lia|].
  split; [done|].
  assert (Heq : (inject_Z (mantissa a * mantissa b) * 2 ^ (exponent a + exponent b)
                 == double_value a * double_value b)%Q).
  { unfold double_value. rewrite inject_Z_mult, Qpower_plus by done.
    generalize (2 ^ exponent a)%Q (2 ^ exponent b)%Q. intros. ring. }
  rewrite Heq in Hlo, Hhi. done.
Qed.

Lemma double_align_value (m e e' : Z) :
  (e' <= e)%Z ->
  (inject_Z (m * 2 ^ (e - e')) * 2 ^ e' == inject_Z m * 2 ^ e)%Q.
Proof.
  intros He. rewrite inject_Z_mult, Zpower_Qpower by lia.
  change (inject_Z 2) with 2%Q.
  replace e with ((e - e') + e')%Z at 2 by lia.
  rewrite Qpower_plus by done.
  generalize (2 ^ (e - e'))%Q (2 ^ e')%Q. intros. ring.
Qed.

Lemma double_add_value (a b : double) :
  (0 <= mantissa a)%Z -> (0 <= mantissa b)%Z ->
  (0 <= mantissa (double_add a b))%Z /\
  ((1 - double_eps) * (double_value a + double_value b)
     <= double_value (double_add a b))%Q /\
  (double_value (double_add a b)
     <= (1 + double_eps) * (double_value a + double_value b))%Q.
Proof.
  intros Ha Hb. unfold double_add.
  set (e := Z.min (exponent a) (exponent b)).
  destruct (round_double_value
              (mantissa a * 2 ^ (exponent a - e) + mantissa b * 2 ^ (exponent b - e)) e)
    as (Hm & Hlo & Hhi).
  { assert (0 <= 2 ^ (exponent a - e))%Z by (apply Z.pow_nonneg; lia).
    assert (0 <= 2 ^ (exponent b - e))%Z by (apply Z.pow_nonneg; lia). nia. }
  split; [done|].
  assert (Heq : (inject_Z (mantissa a * 2 ^ (exponent a - e)
                           + mantissa b * 2 ^ (exponent b - e)) * 2 ^ e
                 == double_value a + double_value b)%Q).
  { unfold double_value. rewrite inject_Z_plus, Qmult_plus_distr_l.
    rewrite !double_align_value by (subst e; lia). reflexivity. }
  rewrite Heq in Hlo, Hhi. done.
Qed.

Lemma double_lt_value (a b : double) :
  double_lt a b = true <-> (double_value a < double_value b)%Q.
Proof.
  unfold double_lt. set (e := Z.min (exponent a) (exponent b)).
  rewrite Z.ltb_lt, Zlt_Qlt.
  rewrite <- (double_align_value (mantissa a) (exponent a) e) by (subst e; lia).
  rewrite <- (double_align_value (mantissa b) (exponent b) e) by (subst e; lia).
  pose proof (two_power_pos e) as HP.
  generalize dependent (2 ^ e)%Q. intros P HP.
  generalize (inject_Z (mantissa a * 2 ^ (exponent a - e)))
             (inject_Z (mantissa b * 2 ^ (exponent b - e))).
  intros x y. split; intros; nra.
Qed.

Lemma double_trunc_ge (d : double) (z : Z) :
  (inject_Z z <= double_value d)%Q -> (z <= double_trunc d)%Z.
Proof.
  unfold double_value, double_trunc. destruct d as [m e]; simpl.
  destruct (Z.leb_spec 0 e) as [He|He].
  - change 2%Q with (inject_Z 2).
    rewrite <- Zpower_Qpower, <- inject_Z_mult by done. by rewrite <- Zle_Qle.
  - intros Hle. apply Z.div_le_lower_bound; [apply Z.pow_pos_nonneg; lia|].
    assert (Hpow : (inject_Z (2 ^ (- e)) * 2 ^ e == 1)%Q).
    { rewrite Zpower_Qpower by lia. change (inject_Z 2) with 2%Q.
      rewrite <- Qpower_plus by done. by replace (- e + e)%Z with 0%Z by lia. }
    rewrite Zle_Qle, inject_Z_mult.
    pose proof (two_power_pos e) as HP.
    assert (H2 : (0 < inject_Z (2 ^ (- e)))%Q).
    { rewrite <- (Zlt_Qlt 0). apply Z.pow_pos_nonneg; lia. }
    generalize dependent (2 ^ e)%Q. generalize dependent (inject_Z (2 ^ (- e))).
    generalize (inject_Z z) (inject_Z m). intros Z0 M0 P2 HP2 P Hle Hpow HP.
    assert (Hstep : (P2 * Z0 <= P2 * (M0 * P))%Q) by nra.
    assert (Heq : (P2 * (M0 * P) == M0 * (P2 * P))%Q) by ring.
    rewrite Heq, Hpow in Hstep. lra.
Qed.

Lemma MaxLoadFactor_value : (double_value MaxLoadFactor == 7286977265429598 # 4503599627370496)%Q.
Proof. reflexivity. Qed.

Lemma MinLoadFactor_value : (double_value MinLoadFactor == 5895288442624194 # 2251799813685248)%Q.
Proof. reflexivity. Qed.

Lemma grown_bucket_count_gt (n : nat) : n < grown_bucket_count n.
Proof.
  unfold grown_bucket_count, to_size_t, of_size_t.
  destruct (double_of_Z_value (Z.of_nat n)) as (Hm0 & Hlo0 & _); [lia|].
  destruct (double_mul_value (double_of_Z (Z.of_nat n)) MaxLoadFactor Hm0)
    as (Hm1 & Hlo1 & _); [done|].
  destruct (double_of_Z_value 1) as (Hm2 & Hlo2 & Hhi2); [lia|].
  assert (Hone : (double_value (double_of_Z 1) == 1)%Q) by reflexivity.
  destruct (double_add_value _ (double_of_Z 1) Hm1 Hm2) as (Hm3 & Hlo3 & _).
  rewrite Hone, MaxLoadFactor_value in *.
  destruct n as [|n]; [vm_compute; lia|].
  cut (Z.of_nat (S n) + 1 <= double_trunc
         (double_add (double_mul (double_of_Z (Z.of_nat (S n))) MaxLoadFactor)
                     (double_of_Z 1)))%Z; [lia|].
  apply double_trunc_ge. rewrite inject_Z_plus.
  assert (HN : (1 <= inject_Z (Z.of_nat (S n)))%Q).
  { rewrite <- (Zle_Qle 1). lia. }
  unfold double_eps in *. clear Hlo2 Hhi2 Hone.
  revert Hlo0 Hlo1 Hlo3 HN.
  generalize (inject_Z (Z.of_nat (S n))).
  generalize (double_value (double_add (double_mul (double_of_Z (Z.of_nat (S n))) MaxLoadFactor)
                     (double_of_Z 1))).
  generalize (double_value (double_mul (double_of_Z (Z.of_nat (S n))) MaxLoadFactor)).
  generalize (double_value (double_of_Z (Z.of_nat (S n)))).
  intros v0 v1 v2 N Hlo0 Hlo1 Hlo3 HN. change (inject_Z 1) with 1%Q. lra.
Qed.

Lemma shrink_check_le (n chain_len : nat) :
  chain_len <= n -> shrink_check n chain_len = false.
Proof.
  intros Hle. apply not_true_iff_false. unfold shrink_check, of_size_t.
  rewrite double_lt_value.
  destruct (double_of_Z_value (Z.of_nat n)) as (Hm0 & Hlo0 & _); [lia|].
  destruct (double_of_Z_value (Z.of_nat chain_len)) as (_ & _ & Hhi1); [lia|].
  destruct (double_mul_value (double_of_Z (Z.of_nat n)) MinLoadFactor Hm0)
    as (_ & Hlo2 & _); [by vm_compute|].
  rewrite MinLoadFactor_value in Hlo2.
  assert (HN : (0 <= inject_Z (Z.of_nat chain_len)
                /\ inject_Z (Z.of_nat chain_len) <= inject_Z (Z.of_nat n))%Q).
  { rewrite <- (Zle_Qle 0), <- Zle_Qle. lia. }
  unfold double_eps in *. revert Hlo0 Hhi1 Hlo2 HN.
  generalize (inject_Z (Z.of_nat n)).
  generalize (inject_Z (Z.of_nat chain_len)).
  generalize (double_value (double_mul (double_of_Z (Z.of_nat n)) MinLoadFactor)).
  generalize (double_value (double_of_Z (Z.of_nat n))).
  generalize (double_value (double_of_Z (Z.of_nat chain_len))).
  intros. lra.
Qed.

(** ** Loops over containers *)

Lemma for_each_app {A S : Type} (body : A → S → result S) (l1 l2 : list A) (s : S) :
  for_each body (l1 ++ l2) s = for_each body l1 s ≫= for_each body l2.
Proof.
  revert s. induction l1 as [|x l1 IH]; intros s; simpl; [done|].
  destruct (body x s) as [s'|e]; simpl; [apply IH | done].
Qed.

Lemma for_each_join {A S : Type} (body : A → S → result S) (ls : list (list A)) (s : S) :
  for_each (λ l, for_each body l) ls s = for_each body (mjoin ls) s.
Proof.
  revert s. induction ls as [|l ls IH]; intros s; simpl; [done|].
  rewrite for_each_app.
  destruct (for_each body l s) as [s'|e]; simpl; [apply IH | done].
Qed.

Lemma join_replicate_nil {A : Type} (n : nat) : mjoin (replicate n (@nil A)) = [].
Proof. induction n; simpl; auto. Qed.

(** Replacing one bucket replaces its segment of the flattened table. *)
Lemma join_insert {A : Type} (ls : list (list A)) (i : nat) (l l' : list A) :
  ls !! i = Some l →
  ∃ pre post, mjoin ls = pre ++ l ++ post ∧ mjoin (<[i:=l']> ls) = pre ++ l' ++ post.
Proof.
  intros Hi. exists (mjoin (take i ls)), (mjoin (drop (S i) ls)). split.
  - rewrite <- (take_drop_middle ls i l Hi) at 1.
    by rewrite join_app.
  - rewrite insert_take_drop by (by eapply lookup_lt_Some).
    by rewrite join_app.
Qed.

Section Verification.
Context {KeyType ValueType : Type} `{EqDecision KeyType}.

#[local] Abbreviation MyPair := (KeyType * ValueType)%type.
#[local] Abbreviation Map := (@HashMap KeyType ValueType).

Implicit Types (m : Map) (key k : KeyType) (v : MyPair) (bucket chain : list MyPair).

(** *** The chain scans *)

Lemma chain_mem_true k bucket : chain_mem k bucket = true ↔ k ∈ bucket.*1.
Proof.
  induction bucket as [|[k' x] rest IH]; simpl.
  - split; [done | by intros ?%elem_of_nil].
  - rewrite elem_of_cons, <- IH.
    destruct (decide (k' = k)) as [->|Hne]; intuition congruence.
Qed.

Lemma chain_mem_false k bucket : chain_mem k bucket = false ↔ k ∉ bucket.*1.
Proof. rewrite <- chain_mem_true. by destruct (chain_mem k bucket). Qed.

Lemma chain_at_None k bucket : chain_at k bucket = None ↔ k ∉ bucket.*1.
Proof.
  induction bucket as [|[k' x] rest IH]; simpl.
  - split; [by intros _ ?%elem_of_nil | done].
  - rewrite not_elem_of_cons.
    destruct (decide (k' = k)) as [->|Hne]; simpl.
    + split; [done | by intros [? _]].
    + rewrite IH. split; [by split; [congruence|] | by intros [_ ?]].
Qed.

Lemma chain_at_Some_elem k bucket x : chain_at k bucket = Some x → (k, x) ∈ bucket.
Proof.
  induction bucket as [|[k' x'] rest IH]; simpl; [done|].
  case_decide; simpl in *.
  - intros [= ->]. subst. apply elem_of_cons; auto.
  - intros ?. apply elem_of_cons; auto.
Qed.

Lemma chain_at_NoDup k bucket x :
  NoDup bucket.*1 → (k, x) ∈ bucket → chain_at k bucket = Some x.
Proof.
  induction bucket as [|[k' x'] rest IH]; simpl.
  - by intros _ ?%elem_of_nil.
  - intros [Hnotin Hnd]%NoDup_cons [Heq|Hin]%elem_of_cons.
    + injection Heq as -> ->. by rewrite decide_True.
    + case_decide as Hk; simpl in *; [|auto].
      subst k'. exfalso. apply Hnotin.
      apply list_elem_of_fmap. by exists (k, x).
Qed.

Lemma chain_find_None k bucket : chain_find k bucket = None ↔ k ∉ bucket.*1.
Proof.
  induction bucket as [|[k' x] rest IH]; simpl.
  - split; [by intros _ ?%elem_of_nil | done].
  - rewrite not_elem_of_cons.
    destruct (decide (k' = k)) as [->|Hne]; simpl.
    + split; [done | by intros [? _]].
    + rewrite fmap_None, IH. split; [by split; [congruence|] | by intros [_ ?]].
Qed.

Lemma chain_find_Some k bucket j :
  chain_find k bucket = Some j →
  ∃ x, bucket !! j = Some (k, x) ∧ chain_at k bucket = Some x.
Proof.
  revert j. induction bucket as [|[k' x'] rest IH]; intros j; simpl; [done|].
  case_decide as Hk; simpl in *.
  - intros [= <-]. subst. by exists x'.
  - intros (j' & Hj' & ->)%fmap_Some. by apply IH.
Qed.

Lemma chain_find_is_Some k bucket :
  k ∈ bucket.*1 → is_Some (chain_find k bucket).
Proof.
  intros Hin. destruct (chain_find k bucket) eqn:E; [by eexists|].
  by apply chain_find_None in E.
Qed.

(** *** Buckets and the flattened table *)

Lemma bucketIndex_ok m k :
  0 < length (data m) →
  bucketIndex m k = Ok (hasher m k mod length (data m)).
Proof. intros Hc. unfold bucketIndex. rewrite decide_False by lia. done. Qed.

Lemma vec_at_ok {A : Type} (l : list A) i x : l !! i = Some x → vec_at l i = Ok x.
Proof. intros Hi. unfold vec_at. by rewrite Hi. Qed.

Lemma bucket_exists m k :
  0 < length (data m) →
  ∃ bucket, data m !! (hasher m k mod length (data m)) = Some bucket.
Proof.
  intros Hc. apply lookup_lt_is_Some_2, Nat.mod_upper_bound. lia.
Qed.

Lemma bucket_entries m i bucket v :
  data m !! i = Some bucket → v ∈ bucket → v ∈ entries m.
Proof.
  intros Hi Hv. apply list_elem_of_join. exists bucket. split; [done|].
  apply list_elem_of_lookup. by exists i.
Qed.

Lemma entries_bucket m v bucket :
  placed m →
  data m !! (hasher m v.1 mod length (data m)) = Some bucket →
  v ∈ entries m → v ∈ bucket.
Proof.
  intros Hp Hb (chain & Hv & (i & Hi)%list_elem_of_lookup)%list_elem_of_join.
  rewrite (Hp i chain v Hi Hv) in Hb. congruence.
Qed.

Lemma key_entries_bucket m k bucket :
  placed m →
  data m !! (hasher m k mod length (data m)) = Some bucket →
  k ∈ (entries m).*1 ↔ k ∈ bucket.*1.
Proof.
  intros Hp Hb. rewrite !list_elem_of_fmap. split.
  - intros ([k' x] & -> & Hin). exists (k', x). split; [done|].
    by apply (entries_bucket m (k', x)).
  - intros (v & -> & Hin). exists v. split; [done|]. by eapply bucket_entries.
Qed.

Lemma bucket_NoDup m i bucket :
  NoDup (entries m).*1 → data m !! i = Some bucket → NoDup bucket.*1.
Proof.
  intros Hnd Hi. unfold entries in Hnd.
  destruct (join_insert (data m) i bucket bucket Hi) as (pre & post & Hj & _).
  rewrite Hj, !fmap_app in Hnd.
  by apply NoDup_app in Hnd as (_ & _ & (Hnd & _)%NoDup_app).
Qed.

Lemma bucket_length_le m i bucket :
  data m !! i = Some bucket → length bucket ≤ length (entries m).
Proof.
  intros Hi. unfold entries.
  destruct (join_insert (data m) i bucket bucket Hi) as (pre & post & -> & _).
  rewrite !length_app. lia.
Qed.

(** *** [at] reads the flattened table *)

Lemma at_unfold m k :
  0 < length (data m) →
  ∃ bucket, data m !! (hasher m k mod length (data m)) = Some bucket ∧
    at_ k m = (match chain_at k bucket with
               | Some second => Ok second
               | None => Err OutOfRange
               end, m).
Proof.
  intros Hc. destruct (bucket_exists m k Hc) as [bucket Hb].
  exists bucket. split; [done|]. unfold at_.
  rewrite (bucketIndex_ok m k Hc). simpl. rewrite (vec_at_ok _ _ _ Hb). done.
Qed.

Lemma at_Ok m k x : inv m → at_ k m = (Ok x, m) ↔ (k, x) ∈ entries m.
Proof.
  intros [Hc _ Hnd Hp]. destruct (at_unfold m k Hc) as (bucket & Hb & ->).
  split.
  - destruct (chain_at k bucket) as [y|] eqn:E; [|done].
    intros [= ->]. eapply bucket_entries; [done|]. by apply chain_at_Some_elem.
  - intros Hin. apply (entries_bucket m (k, x) bucket Hp Hb) in Hin.
    by rewrite (chain_at_NoDup k bucket x (bucket_NoDup m _ _ Hnd Hb) Hin).
Qed.

Lemma at_OutOfRange m k :
  inv m → at_ k m = (Err OutOfRange, m) ↔ k ∉ (entries m).*1.
Proof.
  intros [Hc _ Hnd Hp]. destruct (at_unfold m k Hc) as (bucket & Hb & ->).
  rewrite (key_entries_bucket m k bucket Hp Hb), <- chain_at_None.
  destruct (chain_at k bucket); split; congruence.
Qed.

Lemma at_total m k :
  inv m → (∃ x, at_ k m = (Ok x, m)) ∨ at_ k m = (Err OutOfRange, m).
Proof.
  intros Hi. destruct (at_unfold m k (inv_capacity m Hi)) as (bucket & _ & ->).
  destruct (chain_at k bucket); eauto.
Qed.

(** *** [insert] *)

Lemma insert_present fuel m v :
  0 < length (data m) → placed m → v.1 ∈ (entries m).*1 → insert fuel v m = Ok m.
Proof.
  intros Hc Hp Hin. destruct (bucket_exists m v.1 Hc) as [bucket Hb].
  apply (key_entries_bucket m _ bucket Hp Hb), chain_mem_true in Hin.
  destruct fuel; simpl;
    rewrite (bucketIndex_ok m _ Hc); simpl;
    rewrite (vec_at_ok _ _ _ Hb); simpl; by rewrite Hin.
Qed.

(** The map after [bucket.push_back(v); ++keyCount;]. *)
Lemma push_back_inv m v bucket :
  inv m →
  data m !! (hasher m v.1 mod length (data m)) = Some bucket →
  v.1 ∉ (entries m).*1 →
  let m1 := mkHashMap (hasher m)
              (<[hasher m v.1 mod length (data m) := bucket ++ [v]]> (data m))
              (S (keyCount m)) in
  inv m1 ∧ entries m1 ≡ₚ v :: entries m.
Proof.
  intros [Hc Hn Hnd Hp] Hb Hnotin m1.
  assert (Hperm : entries m1 ≡ₚ v :: entries m).
  { unfold entries, m1; simpl.
    destruct (join_insert (data m) _ bucket (bucket ++ [v]) Hb)
      as (pre & post & -> & ->).
    rewrite <- (assoc_L (++) bucket [v] post). simpl.
    by rewrite <- !Permutation_middle. }
  split; [|done]. split.
  - simpl. by rewrite length_insert.
  - rewrite Hperm. simpl. by rewrite Hn.
  - rewrite Hperm. simpl. by apply NoDup_cons.
  - intros i chain e. unfold m1; simpl. rewrite length_insert.
    intros [(<- & <- & _)|(Hne & Hi)]%list_lookup_insert_Some Hin.
    + apply elem_of_app in Hin as [Hin|Hin%list_elem_of_singleton]; [|by subst].
      by apply (Hp _ bucket).
    + by apply (Hp _ chain).
Qed.

Lemma insert_absent_unfold fuel m v bucket :
  0 < length (data m) →
  data m !! (hasher m v.1 mod length (data m)) = Some bucket →
  v.1 ∉ bucket.*1 →
  let m1 := mkHashMap (hasher m)
              (<[hasher m v.1 mod length (data m) := bucket ++ [v]]> (data m))
              (S (keyCount m)) in
  insert fuel v m =
    if decide (length (data m) ≤ S (keyCount m)) then
      match fuel with
      | 0 => Err OutOfFuel
      | S fuel' => rehash fuel' (grown_bucket_count (S (keyCount m))) m1
      end
    else Ok m1.
Proof.
  intros Hc Hb Hnotin%chain_mem_false m1.
  destruct fuel; simpl;
    rewrite (bucketIndex_ok m _ Hc); simpl;
    rewrite (vec_at_ok _ _ _ Hb); simpl; rewrite Hnotin, length_insert; done.
Qed.

Lemma insert_absent_fits fuel m v :
  inv m → v.1 ∉ (entries m).*1 → S (keyCount m) < length (data m) →
  ∃ m', insert fuel v m = Ok m' ∧ inv m' ∧ hasher m' = hasher m ∧
        length (data m') = length (data m) ∧ entries m' ≡ₚ v :: entries m.
Proof.
  intros Hi Hnotin Hfit. pose proof (inv_capacity m Hi) as Hc.
  destruct (bucket_exists m v.1 Hc) as [bucket Hb].
  destruct (push_back_inv m v bucket Hi Hb Hnotin) as [Hi1 Hperm].
  eexists. split.
  - rewrite (insert_absent_unfold fuel m v bucket Hc Hb).
    + rewrite decide_False by lia. done.
    + by rewrite <- (key_entries_bucket m _ bucket (inv_placed m Hi) Hb).
  - split; [done|]. split; [done|]. split; [|done]. simpl. by rewrite length_insert.
Qed.

(** Inserting a sequence into a table with room for all of it never
    rehashes; repeated keys are dropped. *)
Lemma for_each_insert fuel items m :
  inv m → keyCount m + length items < length (data m) →
  ∃ m', for_each (insert fuel) items m = Ok m' ∧ inv m' ∧
        hasher m' = hasher m ∧ length (data m') = length (data m) ∧
        keyCount m' ≤ keyCount m + length items ∧
        (NoDup items.*1 → (∀ k, k ∈ items.*1 → k ∉ (entries m).*1) →
         entries m' ≡ₚ entries m ++ items).
Proof.
  revert m. induction items as [|v items IH]; intros m Hi Hroom; simpl in *.
  - exists m. split_and!; try done; try lia. intros _ _. by rewrite app_nil_r.
  - destruct (decide (v.1 ∈ (entries m).*1)) as [Hin|Hnotin].
    + rewrite (insert_present fuel m v (inv_capacity m Hi) (inv_placed m Hi) Hin).
      simpl. destruct (IH m Hi) as (m' & -> & ? & ? & ? & ? & _); [lia|].
      exists m'. split_and!; try done; try lia.
      intros _ Hdis. exfalso. apply (Hdis v.1); [|done]. apply elem_of_cons; auto.
    + destruct (insert_absent_fits fuel m v Hi Hnotin) as (m1 & -> & Hi1 & Hh & Hl & Hperm);
        [lia|]. simpl.
      assert (Hk1 : keyCount m1 = S (keyCount m)).
      { rewrite (inv_count m1 Hi1), Hperm. simpl. by rewrite (inv_count m Hi). }
      destruct (IH m1 Hi1) as (m' & -> & ? & ? & ? & ? & Hp'); [lia|].
      exists m'. split_and!; try done; try congruence; try lia.
      intros [Hv Hnd]%NoDup_cons Hdis. rewrite Hp'.
      * rewrite Hperm. simpl. by rewrite <- Permutation_middle.
      * done.
      * intros k Hk. rewrite Hperm. simpl. rewrite elem_of_cons.
        intros [->|Hin]; [done|]. apply (Hdis k); [|done]. apply elem_of_cons; auto.
Qed.

Lemma rehash_spec fuel bucketSize m :
  NoDup (entries m).*1 → length (entries m) < bucketSize →
  ∃ m', rehash fuel bucketSize m = Ok m' ∧ wf m' ∧ hasher m' = hasher m ∧
        length (data m') = bucketSize ∧ entries m' ≡ₚ entries m.
Proof.
  intros Hnd Hlt. unfold rehash, rehash_with. rewrite for_each_join.
  set (m0 := mkHashMap (hasher m) (replicate bucketSize []) 0).
  assert (He0 : entries m0 = []) by apply join_replicate_nil.
  assert (Hi0 : inv m0).
  { split.
    - simpl. rewrite length_replicate. lia.
    - by rewrite He0.
    - rewrite He0. constructor.
    - intros i chain v [-> _]%lookup_replicate Hv. by apply elem_of_nil in Hv. }
  destruct (for_each_insert fuel (mjoin (data m)) m0 Hi0)
    as (m' & Hrun & Hi' & Hh & Hl & Hk & Hperm).
  { simpl. rewrite length_replicate. unfold entries in Hlt. lia. }
  simpl in *. rewrite length_replicate in Hl.
  exists m'. split; [done|]. split; [split; [done|]; unfold entries in Hlt; lia|].
  split; [done|]. split; [done|].
  rewrite Hperm, He0; [done|done|]. intros k _. rewrite He0. by intros ?%elem_of_nil.
Qed.

Lemma insert_absent_grows fuel m v :
  inv m → v.1 ∉ (entries m).*1 → length (data m) ≤ S (keyCount m) →
  ∃ m', insert (S fuel) v m = Ok m' ∧ wf m' ∧ hasher m' = hasher m ∧
        length (data m') = grown_bucket_count (S (keyCount m)) ∧
        entries m' ≡ₚ v :: entries m.
Proof.
  intros Hi Hnotin Hfull. pose proof (inv_capacity m Hi) as Hc.
  destruct (bucket_exists m v.1 Hc) as [bucket Hb].
  destruct (push_back_inv m v bucket Hi Hb Hnotin) as [Hi1 Hperm].
  rewrite (insert_absent_unfold (S fuel) m v bucket Hc Hb)
    by (by rewrite <- (key_entries_bucket m _ bucket (inv_placed m Hi) Hb)).
  rewrite decide_True by done.
  match goal with |- context [rehash _ _ ?m1] =>
    destruct (rehash_spec fuel (grown_bucket_count (S (keyCount m))) m1)
      as (m' & -> & Hwf & Hh & Hl & Hp) end.
  - apply (inv_unique _ Hi1).
  - rewrite <- (inv_count _ Hi1). simpl. apply grown_bucket_count_gt.
  - exists m'. split_and!; try done; try apply Hwf. by rewrite Hp.
Qed.

(** The complete behaviour of [insert] on a well-formed map. *)
Lemma insert_spec fuel m v :
  wf m →
  ∃ m', insert (S fuel) v m = Ok m' ∧ wf m' ∧ hasher m' = hasher m ∧
    ((v.1 ∈ (entries m).*1 ∧ m' = m) ∨
     ((v.1 ∉ (entries m).*1) ∧ entries m' ≡ₚ v :: entries m ∧
      length (data m') =
        (if decide (length (data m) ≤ S (keyCount m))
         then grown_bucket_count (S (keyCount m)) else length (data m)))).
Proof.
  intros [Hi Hload]. destruct (decide (v.1 ∈ (entries m).*1)) as [Hin|Hnotin].
  - exists m. split; [by apply insert_present; [apply Hi | apply Hi |]|]. split; [done|]. auto.
  - case_decide as Hfull.
    + destruct (insert_absent_grows fuel m v Hi Hnotin Hfull)
        as (m' & ? & ? & ? & ? & ?). exists m'. auto 10.
    + destruct (insert_absent_fits (S fuel) m v Hi Hnotin)
        as (m' & ? & Hi' & ? & Hl & Hp); [lia|]. exists m'.
      split; [done|]. split; [|auto 10]. split; [done|].
      rewrite (inv_count _ Hi'), Hp, Hl. simpl. rewrite <- (inv_count _ Hi). lia.
Qed.

Lemma wf_size_entries m : wf m → size m = length (entries m).
Proof. intros [Hi _]. apply (inv_count _ Hi). Qed.

Lemma insert_Ok_wf fuel m v m' :
  wf m → insert fuel v m = Ok m' →
  wf m' ∧ hasher m' = hasher m ∧
  ((v.1 ∈ (entries m).*1 ∧ m' = m) ∨
   ((v.1 ∉ (entries m).*1) ∧ entries m' ≡ₚ v :: entries m ∧
    length (data m') =
      (if decide (length (data m) ≤ S (keyCount m))
       then grown_bucket_count (S (keyCount m)) else length (data m)))).
Proof.
  intros Hwf Hrun. destruct fuel as [|fuel].
  - destruct Hwf as [Hi Hload].
    destruct (decide (v.1 ∈ (entries m).*1)) as [Hin|Hnotin].
    + rewrite insert_present in Hrun by (done || apply Hi).
      injection Hrun as <-. split; [done|]. auto.
    + pose proof (inv_capacity m Hi) as Hc.
      destruct (bucket_exists m v.1 Hc) as [bucket Hb].
      rewrite (insert_absent_unfold 0 m v bucket Hc Hb) in Hrun
        by (by rewrite <- (key_entries_bucket m _ bucket (inv_placed m Hi) Hb)).
      case_decide as Hfull; [done|].
      destruct (insert_absent_fits 0 m v Hi Hnotin) as (m1 & Hrun1 & Hi1 & ? & Hl & Hp);
        [lia|].
      rewrite (insert_absent_unfold 0 m v bucket Hc Hb) in Hrun1
        by (by rewrite <- (key_entries_bucket m _ bucket (inv_placed m Hi) Hb)).
      rewrite decide_False in Hrun1 by done. rewrite Hrun in Hrun1.
      injection Hrun1 as ->. split; [|auto]. split; [done|].
      rewrite (inv_count _ Hi1), Hp, Hl. simpl. rewrite <- (inv_count _ Hi). lia.
  - destruct (insert_spec fuel m v Hwf) as (m1 & Hrun1 & ? & ? & Hcases).
    rewrite Hrun in Hrun1. by injection Hrun1 as ->.
Qed.

(** *** [erase] *)

Lemma erase_absent fuel m k :
  0 < length (data m) → placed m → k ∉ (entries m).*1 → erase fuel k m = Ok m.
Proof.
  intros Hc Hp Hnotin. destruct (bucket_exists m k Hc) as [bucket Hb].
  rewrite (key_entries_bucket m _ bucket Hp Hb), <- chain_find_None in Hnotin.
  unfold erase. rewrite (bucketIndex_ok m _ Hc). simpl.
  rewrite (vec_at_ok _ _ _ Hb). simpl. by rewrite Hnotin.
Qed.

(** The code path of [erase] once the scan has stopped at position [j]. *)
Lemma erase_present_unfold fuel m k bucket j :
  0 < length (data m) →
  data m !! (hasher m k mod length (data m)) = Some bucket →
  chain_find k bucket = Some j →
  let m1 := mkHashMap (hasher m)
              (<[hasher m k mod length (data m) := delete j bucket]> (data m))
              (pred (keyCount m)) in
  erase fuel k m =
    if shrink_check (keyCount m1) (length (delete j bucket)) then
      rehash fuel (grown_bucket_count (keyCount m1)) m1
    else Ok m1.
Proof.
  intros Hc Hb Hj m1. unfold erase. rewrite (bucketIndex_ok m _ Hc). simpl.
  rewrite (vec_at_ok _ _ _ Hb). simpl. by rewrite Hj.
Qed.

(** The map after [bucket.erase(it); --keyCount;]. *)
Lemma erase_node_inv m k x bucket j :
  inv m →
  data m !! (hasher m k mod length (data m)) = Some bucket →
  bucket !! j = Some (k, x) →
  let m1 := mkHashMap (hasher m)
              (<[hasher m k mod length (data m) := delete j bucket]> (data m))
              (pred (keyCount m)) in
  inv m1 ∧ entries m ≡ₚ (k, x) :: entries m1 ∧
  length (delete j bucket) ≤ keyCount m1.
Proof.
  intros [Hc Hn Hnd Hp] Hb Hj m1.
  assert (Hperm : entries m ≡ₚ (k, x) :: entries m1).
  { unfold entries, m1; simpl.
    destruct (join_insert (data m) _ bucket (delete j bucket) Hb)
      as (pre & post & -> & ->).
    rewrite (delete_Permutation bucket j (k, x) Hj) at 1. simpl.
    by rewrite <- Permutation_middle. }
  assert (Hb1 : data m1 !! (hasher m k mod length (data m)) = Some (delete j bucket)).
  { simpl. apply list_lookup_insert_eq. by eapply lookup_lt_Some. }
  assert (Hn1 : keyCount m1 = length (entries m1)).
  { simpl. rewrite Hn, Hperm. done. }
  split; [|split; [done|]].
  - split.
    + simpl. by rewrite length_insert.
    + done.
    + rewrite Hperm in Hnd. simpl in Hnd. by apply NoDup_cons in Hnd as [_ ?].
    + intros i chain e. unfold m1; simpl. rewrite length_insert.
      intros [(<- & <- & _)|(Hne & Hi)]%list_lookup_insert_Some Hin.
      * apply list_elem_of_delete_inv in Hin. by apply (Hp _ bucket).
      * by apply (Hp _ chain).
  - rewrite Hn1. by eapply bucket_length_le.
Qed.

Lemma erase_present fuel m k x :
  inv m → (k, x) ∈ entries m →
  ∃ m', erase fuel k m = Ok m' ∧ inv m' ∧ hasher m' = hasher m ∧
        length (data m') = length (data m) ∧
        keyCount m' = pred (keyCount m) ∧
        entries m ≡ₚ (k, x) :: entries m'.
Proof.
  intros Hi Hin. pose proof (inv_capacity m Hi) as Hc.
  destruct (bucket_exists m k Hc) as [bucket Hb].
  pose proof (entries_bucket m (k, x) bucket (inv_placed m Hi) Hb Hin) as Hinb.
  destruct (chain_find_is_Some k bucket) as [j Hj].
  { apply list_elem_of_fmap. by exists (k, x). }
  destruct (chain_find_Some k bucket j Hj) as (x' & Hjx & Hat).
  rewrite (chain_at_NoDup k bucket x (bucket_NoDup m _ _ (inv_unique m Hi) Hb) Hinb) in Hat.
  injection Hat as <-.
  destruct (erase_node_inv m k x bucket j Hi Hb Hjx) as (Hi1 & Hperm & Hlen).
  eexists. split.
  - rewrite (erase_present_unfold fuel m k bucket j Hc Hb Hj).
    by rewrite shrink_check_le.
  - split; [done|]. split; [done|]. split; [|done]. simpl. by rewrite length_insert.
Qed.

Lemma erase_Ok_wf fuel m k m' :
  wf m → erase fuel k m = Ok m' → wf m'.
Proof.
  intros [Hi Hload] Hrun. destruct (decide (k ∈ (entries m).*1)) as [Hin|Hnotin].
  - apply list_elem_of_fmap in Hin as ([k' x] & -> & Hin).
    destruct (erase_present fuel m k' x Hi Hin) as (m1 & Hrun1 & ? & ? & Hl & Hk & ?).
    simpl in Hrun. rewrite Hrun in Hrun1. injection Hrun1 as ->.
    split; [done|]. lia.
  - rewrite erase_absent in Hrun by (done || apply Hi). by injection Hrun as <-.
Qed.

(** Membership in the flattened table is preserved by permutations. *)
Lemma key_not_in_rest (l l' : list MyPair) k x :
  NoDup l.*1 → l ≡ₚ (k, x) :: l' → k ∉ l'.*1.
Proof.
  intros Hnd Hperm. rewrite Hperm in Hnd. simpl in Hnd.
  by apply NoDup_cons in Hnd as [? _].
Qed.

(** *** Iterators and traversal *)

(** The scan that looks for the next non-empty bucket, as a function of the
    buckets still ahead. *)
Lemma incr_scan_fresh (rest : list (list MyPair)) b :
  rest ≠ [] →
  incr_scan rest b (Some 0) =
    match rest with
    | [] => mkIterator b (Some 0)
    | [] :: rest' =>
        match rest' with
        | [] => mkIterator (S b) None
        | _ :: _ => incr_scan rest' (S b) (Some 0)
        end
    | (_ :: _) :: _ => mkIterator b (Some 0)
    end.
Proof. destruct rest as [|[|v chain] rest']; [done| |done]. intros _. by destruct rest'. Qed.

Lemma position_scan m b :
  b ≤ length (data m) → drop b (data m) ≠ [] →
  position m (incr_scan (drop b (data m)) b (Some 0)) (mjoin (drop b (data m))).
Proof.
  intros Hb Hne.
  remember (length (data m) - b) as n eqn:Hn.
  revert b Hb Hne Hn. induction n as [|n IH]; intros b Hb Hne Hn.
  - rewrite drop_ge in Hne by lia. done.
  - destruct (lookup_lt_is_Some_2 (data m) b) as [chain Hchain]; [lia|].
    rewrite (drop_S _ _ _ Hchain) in *. rewrite incr_scan_fresh by done.
    destruct chain as [|v chain].
    + simpl. destruct (drop (S b) (data m)) as [|c rest'] eqn:Hrest.
      * simpl. assert (S b = length (data m)) as ->.
        { apply (f_equal length) in Hrest. rewrite length_drop in Hrest.
          simpl in Hrest. lia. }
        constructor.
      * rewrite <- Hrest. apply IH; [lia| by rewrite Hrest |lia].
    + change (mjoin ((v :: chain) :: drop (S b) (data m)))
        with (drop 0 (v :: chain) ++ mjoin (drop (S b) (data m))).
      apply position_entry; [done | simpl; lia].
Qed.

Lemma begin_scan_incr_scan (rest : list (list MyPair)) b :
  rest ≠ [] →
  incr_scan rest b (Some 0) =
    if decide (begin_scan rest b = b + length rest)
    then mkIterator (b + length rest) None
    else mkIterator (begin_scan rest b) (Some 0).
Proof.
  revert b. induction rest as [|chain rest IH]; intros b Hne; [done|].
  assert (Hmono : ∀ (l : list (list MyPair)) c, c ≤ begin_scan l c ≤ c + length l).
  { clear. induction l as [|[|??] l IHl]; intros c; simpl; [lia| |lia].
    specialize (IHl (S c)). lia. }
  rewrite incr_scan_fresh by done. destruct chain as [|v chain]; cbn [begin_scan].
  - replace (b + length ([] :: rest)) with (S b + length rest) by (simpl; lia).
    destruct rest as [|c rest'].
    + simpl. rewrite decide_True by lia. f_equal. lia.
    + by rewrite IH.
  - rewrite decide_False by (simpl; lia). done.
Qed.

Lemma position_begin m : position m (begin m) (entries m).
Proof.
  pose proof (position_scan m 0) as Hpos. rewrite drop_0 in Hpos.
  unfold begin, entries. destruct (data m) as [|chain rest] eqn:Hd.
  - cbn. apply position_end.
  - rewrite begin_scan_incr_scan in Hpos by done. cbn [Nat.add] in Hpos.
    cbv zeta. unfold end_. rewrite Hd. apply Hpos; [lia | done].
Qed.

Lemma position_inv m it rest :
  position m it rest →
  (it = end_ m ∧ rest = []) ∨
  ∃ b j chain, data m !! b = Some chain ∧ j < length chain ∧
    it = mkIterator b (Some j) ∧
    rest = drop j chain ++ mjoin (drop (S b) (data m)).
Proof. destruct 1; [left | right]; eauto 10. Qed.

Lemma position_nil m it : position m it [] → it = end_ m.
Proof.
  intros [[-> _]|(b & j & chain & Hb & Hj & -> & Hrest)]%position_inv; [done|].
  apply (f_equal length) in Hrest. rewrite length_app, length_drop in Hrest.
  simpl in Hrest. lia.
Qed.

Lemma position_cons m it v rest :
  position m it (v :: rest) →
  iterator_eq it (end_ m) = false ∧ iterator_deref m it = Ok v ∧
  ∃ it', iterator_incr m it = Ok it' ∧ position m it' rest.
Proof.
  intros [[_ [=]]|(b & j & chain & Hb & Hj & -> & Hrest)]%position_inv.
  pose proof (lookup_lt_Some _ _ _ Hb) as Hlt.
  destruct (lookup_lt_is_Some_2 chain j Hj) as [e He].
  rewrite (drop_S _ _ _ He) in Hrest. simpl in Hrest. injection Hrest as -> ->.
  split; [|split].
  - unfold iterator_eq, end_; simpl. rewrite bool_decide_eq_false_2 by lia. done.
  - unfold iterator_deref; simpl. rewrite (vec_at_ok _ _ _ Hb). simpl. by rewrite He.
  - unfold iterator_incr; simpl. rewrite decide_False by lia.
    rewrite (vec_at_ok _ _ _ Hb). simpl. rewrite decide_True by done.
    eexists. split; [done|]. rewrite (drop_S _ _ _ Hb). simpl.
    destruct (decide (S j = length chain)) as [Hend|Hmid].
    + rewrite decide_True by (by f_equal).
      rewrite (drop_ge chain (S j)) by lia. simpl.
      destruct (drop (S b) (data m)) as [|c rest'] eqn:Hrest.
      * simpl. assert (S b = length (data m)) as ->.
        { apply (f_equal length) in Hrest. rewrite length_drop in Hrest.
          simpl in Hrest. lia. }
        constructor.
      * rewrite <- Hrest. apply position_scan; [lia | by rewrite Hrest].
    + rewrite decide_False by congruence.
      apply position_entry; [done | lia].
Qed.

(** A traversal with enough fuel visits exactly the entries ahead. *)
Lemma range_for_position {S : Type} fuel m it rest (body : MyPair → S → result S) s :
  position m it rest → length rest ≤ fuel →
  range_for fuel m it body s = for_each body rest s.
Proof.
  revert fuel it s. induction rest as [|v rest IH]; intros fuel it s Hpos Hfuel.
  - apply position_nil in Hpos as ->. destruct fuel; simpl;
      unfold iterator_eq; by rewrite !bool_decide_eq_true_2.
  - destruct (position_cons m it v rest Hpos) as (Hne & Hderef & it' & Hincr & Hpos').
    destruct fuel as [|fuel]; simpl in *; [lia|].
    rewrite Hne, Hderef. simpl. destruct (body v s) as [s'|e]; simpl; [|done].
    rewrite Hincr. simpl. apply IH; [done|lia].
Qed.

(** Whatever the fuel, a traversal that completes has visited them all. *)
Lemma range_for_Ok {S : Type} fuel m it rest (body : MyPair → S → result S) s r :
  position m it rest → range_for fuel m it body s = Ok r →
  for_each body rest s = Ok r.
Proof.
  revert it rest s. induction fuel as [|fuel IH]; intros it rest s Hpos Hrun.
  - destruct rest as [|v rest].
    + rewrite <- Hrun. symmetry. by apply range_for_position.
    + destruct (position_cons m it v rest Hpos) as (Hne & _).
      simpl in Hrun. by rewrite Hne in Hrun.
  - destruct rest as [|v rest].
    + rewrite <- Hrun. symmetry. apply range_for_position; [done|simpl; lia].
    + destruct (position_cons m it v rest Hpos) as (Hne & Hderef & it' & Hincr & Hpos').
      simpl in Hrun. rewrite Hne, Hderef in Hrun. simpl in *.
      destruct (body v s) as [s'|e]; simpl in *; [|done].
      rewrite Hincr in Hrun. simpl in Hrun. by eapply IH.
Qed.

Lemma for_each_collect (rest acc : list MyPair) :
  for_each (λ element acc', Ok (acc' ++ [element])) rest acc = Ok (acc ++ rest).
Proof.
  revert acc. induction rest as [|v rest IH]; intros acc; simpl.
  - by rewrite app_nil_r.
  - rewrite IH. by rewrite <- (assoc_L (++)).
Qed.

Lemma traverse_entries fuel m :
  length (entries m) ≤ fuel → traverse fuel m = Ok (entries m).
Proof.
  intros Hfuel. unfold traverse.
  rewrite (range_for_position fuel m (begin m) (entries m)) by (apply position_begin || done).
  apply for_each_collect.
Qed.

(** *** [find] and [operator[]] *)

Lemma find_absent m k :
  0 < length (data m) → placed m → k ∉ (entries m).*1 → find k m = Ok (end_ m).
Proof.
  intros Hc Hp Hnotin. destruct (bucket_exists m k Hc) as [bucket Hb].
  rewrite (key_entries_bucket m _ bucket Hp Hb), <- chain_find_None in Hnotin.
  unfold find. rewrite (bucketIndex_ok m _ Hc). simpl.
  rewrite (vec_at_ok _ _ _ Hb). simpl. by rewrite Hnotin.
Qed.

Lemma find_present m k x :
  inv m → (k, x) ∈ entries m →
  ∃ it, find k m = Ok it ∧ iterator_eq it (end_ m) = false ∧
        iterator_deref m it = Ok (k, x).
Proof.
  intros Hi Hin. pose proof (inv_capacity m Hi) as Hc.
  destruct (bucket_exists m k Hc) as [bucket Hb].
  pose proof (entries_bucket m (k, x) bucket (inv_placed m Hi) Hb Hin) as Hinb.
  destruct (chain_find_is_Some k bucket) as [j Hj].
  { apply list_elem_of_fmap. by exists (k, x). }
  destruct (chain_find_Some k bucket j Hj) as (x' & Hjx & Hat).
  rewrite (chain_at_NoDup k bucket x (bucket_NoDup m _ _ (inv_unique m Hi) Hb) Hinb) in Hat.
  injection Hat as <-.
  exists (mkIterator (hasher m k mod length (data m)) (Some j)). split; [|split].
  - unfold find. rewrite (bucketIndex_ok m _ Hc). simpl.
    rewrite (vec_at_ok _ _ _ Hb). simpl. by rewrite Hj.
  - unfold iterator_eq, end_; simpl. apply lookup_lt_Some in Hb.
    rewrite bool_decide_eq_false_2 by lia. done.
  - unfold iterator_deref; simpl. rewrite (vec_at_ok _ _ _ Hb). simpl. by rewrite Hjx.
Qed.

Lemma end_eq_end m : iterator_eq (end_ m) (end_ m) = true.
Proof. unfold iterator_eq. by rewrite !bool_decide_eq_true_2. Qed.

Lemma indexAccess_present ValueType_default fuel m k x :
  inv m → (k, x) ∈ entries m →
  ∃ it, indexAccess ValueType_default fuel k m = Ok (m, it) ∧
        iterator_deref m it = Ok (k, x).
Proof.
  intros Hi Hin. destruct (find_present m k x Hi Hin) as (it & Hfind & Hne & Hderef).
  exists it. split; [|done]. unfold indexAccess. rewrite Hfind. simpl.
  rewrite Hne. simpl. by rewrite Hderef.
Qed.

Lemma indexAccess_absent ValueType_default fuel m k m' :
  inv m → k ∉ (entries m).*1 →
  insert fuel (k, ValueType_default) m = Ok m' → inv m' →
  (k, ValueType_default) ∈ entries m' →
  ∃ it, indexAccess ValueType_default fuel k m = Ok (m', it) ∧
        iterator_deref m' it = Ok (k, ValueType_default).
Proof.
  intros Hi Hnotin Hins Hi' Hin'.
  destruct (find_present m' k _ Hi' Hin') as (it & Hfind & Hne & Hderef).
  exists it. split; [|done]. unfold indexAccess.
  rewrite find_absent by (done || apply Hi). simpl.
  rewrite end_eq_end, Hins. simpl. rewrite Hfind. simpl. by rewrite Hderef.
Qed.

Lemma indexAccess_Ok_wf ValueType_default fuel m k m' it :
  wf m → indexAccess ValueType_default fuel k m = Ok (m', it) → wf m'.
Proof.
  intros Hwf. unfold indexAccess.
  destruct (find k m) as [it0|e]; simpl; [|done].
  destruct (iterator_eq it0 (end_ m)).
  - destruct (insert fuel (k, ValueType_default) m) as [m1|e] eqn:Hins; simpl; [|done].
    destruct (find k m1) as [it1|e]; simpl; [|done].
    destruct (iterator_deref m1 it1); simpl; [|done].
    intros [= <- _]. by eapply insert_Ok_wf.
  - simpl. destruct (iterator_deref m it0); simpl; [|done]. by intros [= <- _].
Qed.

(** *** Writing through an iterator or a reference *)

Lemma iterator_assign_spec m it value m' :
  iterator_assign m it value = Ok m' →
  ∃ b j chain e, data m !! b = Some chain ∧ chain !! j = Some e ∧
    it = mkIterator b (Some j) ∧
    m' = mkHashMap (hasher m) (<[b := <[j := (e.1, value)]> chain]> (data m))
                   (keyCount m).
Proof.
  unfold iterator_assign, iterator_deref, vec_at. destruct it as [b [j|]]; simpl.
  - destruct (data m !! b) as [chain|] eqn:Hb; simpl; [|done].
    destruct (chain !! j) as [e|] eqn:Hj; simpl; [|done].
    intros [= <-]. by exists b, j, chain, e.
  - destruct (data m !! b); simpl; done.
Qed.

Lemma iterator_assign_wf m it value m' :
  wf m → iterator_assign m it value = Ok m' → wf m'.
Proof.
  intros [[Hc Hn Hnd Hp] Hload]
    (b & j & chain & e & Hb & Hj & -> & ->)%iterator_assign_spec.
  assert (Hkeys : (<[j := (e.1, value)]> chain).*1 = chain.*1).
  { rewrite list_fmap_insert. apply list_insert_id. by rewrite list_lookup_fmap, Hj. }
  destruct (join_insert (data m) b chain (<[j := (e.1, value)]> chain) Hb)
    as (pre & post & Hold & Hnew).
  unfold entries in *. split; [split|]; unfold entries; cbn [data keyCount hasher].
  - by rewrite length_insert.
  - rewrite Hn, Hold, Hnew, !length_app, length_insert. done.
  - rewrite Hold in Hnd. rewrite Hnew, !fmap_app, Hkeys. by rewrite !fmap_app in Hnd.
  - intros i c e'. cbn [data keyCount hasher]. rewrite length_insert.
    intros [(<- & <- & _)|(Hne & Hi)]%list_lookup_insert_Some Hin.
    + apply list_elem_of_lookup in Hin as [j' Hin].
      apply list_lookup_insert_Some in Hin as [(<- & <- & _)|(Hne & Hin)].
      * simpl. apply (Hp _ chain e Hb). apply list_elem_of_lookup. eauto.
      * apply (Hp _ chain e' Hb). apply list_elem_of_lookup. eauto.
    + by apply (Hp _ c).
  - by rewrite length_insert.
Qed.

(** *** Constructors *)

Lemma HashMap_default_wf (_hasher : KeyType → nat) :
  wf (HashMap_default (ValueType:=ValueType) _hasher).
Proof.
  split; [split|]; simpl; try lia; try done.
  - constructor.
  - intros [|i] chain v; simpl; [|done]. intros [= <-] Hv. by apply elem_of_nil in Hv.
Qed.

Lemma clear_wf m : wf (clear m).
Proof. apply (HashMap_default_wf (hasher m)). Qed.

Lemma HashMap_range_spec fuel items (_hasher : KeyType → nat) :
  ∃ m, HashMap_range fuel items _hasher = Ok m ∧ wf m ∧ hasher m = _hasher ∧
       length (data m) = grown_bucket_count (length items) ∧
       (NoDup items.*1 → entries m ≡ₚ items).
Proof.
  unfold HashMap_range.
  destruct (rehash_spec fuel (grown_bucket_count (length items))
              (clear (mkHashMap _hasher [] 0)))
    as (m0 & -> & [Hi0 Hload0] & Hh0 & Hl0 & Hp0); simpl.
  { constructor. }
  { pose proof (grown_bucket_count_gt (length items)). lia. }
  assert (Hk0 : keyCount m0 = 0) by (by rewrite (inv_count _ Hi0), Hp0).
  destruct (for_each_insert fuel items m0 Hi0) as (m & -> & Hi & Hh & Hl & Hk & Hp).
  { rewrite Hk0, Hl0. apply grown_bucket_count_gt. }
  exists m. split; [done|]. split; [split; [done|]|].
  - rewrite Hl, Hl0. pose proof (grown_bucket_count_gt (length items)). lia.
  - split; [by rewrite Hh, Hh0|]. split; [congruence|]. intros Hnd.
    rewrite Hp, Hp0; [done|done|]. intros k _. rewrite Hp0. by intros ?%elem_of_nil.
Qed.

Lemma HashMap_copy_spec fuel other :
  wf other → length (entries other) ≤ fuel →
  ∃ m, HashMap_copy fuel other = Ok m ∧ wf m ∧ hasher m = hasher other ∧
       length (data m) = length (data other) ∧ entries m ≡ₚ entries other.
Proof.
  intros [Hio Hloado] Hfuel. unfold HashMap_copy.
  destruct (rehash_spec fuel (length (data other))
              (clear (mkHashMap (hasher other) [] 0)))
    as (m0 & -> & [Hi0 Hload0] & Hh0 & Hl0 & Hp0); simpl.
  { constructor. }
  { apply (inv_capacity _ Hio). }
  assert (Hk0 : keyCount m0 = 0) by (by rewrite (inv_count _ Hi0), Hp0).
  rewrite (range_for_position fuel other (begin other) (entries other))
    by (apply position_begin || done).
  destruct (for_each_insert fuel (entries other) m0 Hi0) as (m & -> & Hi & Hh & Hl & Hk & Hp).
  { rewrite Hk0, Hl0, <- (inv_count _ Hio). done. }
  exists m. split; [done|]. split; [split; [done|]|].
  - rewrite Hl, Hl0. rewrite Hk0, <- (inv_count _ Hio) in Hk. lia.
  - split; [by rewrite Hh, Hh0|]. split; [congruence|].
    rewrite Hp, Hp0; [done|apply (inv_unique _ Hio)|].
    intros k _. rewrite Hp0. by intros ?%elem_of_nil.
Qed.

Lemma HashMap_copy_Ok_wf fuel other m :
  wf other → HashMap_copy fuel other = Ok m → wf m.
Proof.
  intros [Hio Hloado]. unfold HashMap_copy.
  destruct (rehash_spec fuel (length (data other))
              (clear (mkHashMap (hasher other) [] 0)))
    as (m0 & -> & [Hi0 Hload0] & Hh0 & Hl0 & Hp0); simpl.
  { constructor. }
  { apply (inv_capacity _ Hio). }
  assert (Hk0 : keyCount m0 = 0) by (by rewrite (inv_count _ Hi0), Hp0).
  intros Hrun%(range_for_Ok _ _ _ (entries other)); [|apply position_begin].
  destruct (for_each_insert fuel (entries other) m0 Hi0) as (m1 & Hrun1 & Hi & Hh & Hl & Hk & Hp).
  { rewrite Hk0, Hl0, <- (inv_count _ Hio). done. }
  rewrite Hrun in Hrun1. injection Hrun1 as ->. split; [done|].
  rewrite Hl, Hl0. rewrite Hk0, <- (inv_count _ Hio) in Hk. lia.
Qed.

(** *** Every reachable state is well formed *)

Lemma reachable_wf ValueType_default m : reachable ValueType_default m → wf m.
Proof.
  induction 1 as [h|fuel items h m Hrun|fuel other m _ IH Hrun|fuel v m m' _ IH Hrun
                 |fuel k m m' _ IH Hrun|fuel k m m' it _ IH Hrun
                 |it value m m' _ IH Hrun|m _ IH].
  - apply HashMap_default_wf.
  - destruct (HashMap_range_spec fuel items h) as (m1 & Hrun1 & ? & _).
    rewrite Hrun in Hrun1. by injection Hrun1 as ->.
  - by eapply HashMap_copy_Ok_wf.
  - by eapply insert_Ok_wf.
  - by eapply erase_Ok_wf.
  - by eapply indexAccess_Ok_wf.
  - by eapply iterator_assign_wf.
  - apply clear_wf.
Qed.

(** *** Lookups across operations *)

Lemma at_fst_eq m m' k :
  inv m → inv m' →
  (∀ x, (k, x) ∈ entries m ↔ (k, x) ∈ entries m') →
  (at_ k m').1 = (at_ k m).1.
Proof.
  intros Hi Hi' Hsame. destruct (at_total m k Hi) as [[x Hx]|Hnone].
  - rewrite Hx. apply (at_Ok m k x Hi), Hsame, (at_Ok m' k x Hi') in Hx.
    by rewrite Hx.
  - rewrite Hnone. apply (at_OutOfRange m k Hi) in Hnone.
    assert (Hnone' : k ∉ (entries m').*1).
    { intros ([k0 x] & -> & Hin)%list_elem_of_fmap. apply Hnone.
      apply list_elem_of_fmap. exists (k0, x). split; [done|]. by apply Hsame. }
    apply (at_OutOfRange m' k Hi') in Hnone'. by rewrite Hnone'.
Qed.

Lemma elem_of_entries_cons (l l' : list MyPair) v k x :
  l' ≡ₚ v :: l → k ≠ v.1 → (k, x) ∈ l ↔ (k, x) ∈ l'.
Proof.
  intros Hperm Hne. rewrite Hperm, elem_of_cons. split; [auto|].
  intros [Heq|?]; [subst; by destruct Hne|done].
Qed.

Lemma iterator_assign_at m it k x value :
  wf m → iterator_deref m it = Ok (k, x) →
  ∃ m', iterator_assign m it value = Ok m' ∧ wf m' ∧
        at_ k m' = (Ok value, m') ∧ size m' = size m.
Proof.
  intros Hwf Hderef.
  destruct (iterator_assign m it value) as [m'|e] eqn:Hrun.
  - pose proof (iterator_assign_wf m it value m' Hwf Hrun) as Hwf'.
    exists m'. split; [done|]. split; [done|].
    apply iterator_assign_spec in Hrun
      as (b & j & chain & e & Hb & Hj & -> & ->).
    unfold iterator_deref in Hderef; simpl in Hderef.
    rewrite (vec_at_ok _ _ _ Hb) in Hderef; simpl in Hderef.
    rewrite Hj in Hderef. injection Hderef as ->. split; [|done].
    apply at_Ok; [apply Hwf'|]. eapply (bucket_entries _ b); simpl.
    + apply list_lookup_insert_eq. by eapply lookup_lt_Some.
    + apply list_elem_of_lookup. exists j. simpl.
      apply list_lookup_insert_eq. by eapply lookup_lt_Some.
  - exfalso. unfold iterator_assign in Hrun. rewrite Hderef in Hrun. simpl in Hrun.
    unfold iterator_deref, vec_at in Hderef.
    unfold vec_at in Hrun. destruct (data m !! bucketIt it); simpl in *; done.
Qed.

(** *** [std::out_of_range] has a single source *)

Lemma bind_not_err {A B : Type} (r : result A) (f : A → result B) e :
  r ≠ Err e → (∀ a, f a ≠ Err e) → r ≫= f ≠ Err e.
Proof.
  intros Hr Hf. destruct r as [a|e']; [apply Hf|].
  intros [= ->]. by apply Hr.
Qed.

Lemma for_each_not_err {A S : Type} (body : A → S → result S) l s e :
  (∀ x s', body x s' ≠ Err e) → for_each body l s ≠ Err e.
Proof.
  intros Hbody. revert s. induction l as [|x l IH]; intros s; simpl; [done|].
  apply bind_not_err; auto.
Qed.

Lemma bucketIndex_no_throw m k : bucketIndex m k ≠ Err OutOfRange.
Proof. unfold bucketIndex. by case_decide. Qed.

Lemma vec_at_no_throw {A : Type} (l : list A) i : vec_at l i ≠ Err OutOfRange.
Proof. unfold vec_at. by destruct (l !! i). Qed.

Lemma rehash_with_no_throw ins bucketSize m :
  (∀ v m', ins v m' ≠ Err OutOfRange) →
  rehash_with ins bucketSize m ≠ Err OutOfRange.
Proof.
  intros Hins. unfold rehash_with. apply for_each_not_err.
  intros bucket s. by apply for_each_not_err.
Qed.

Lemma insert_no_throw fuel v m : insert fuel v m ≠ Err OutOfRange.
Proof.
  revert v m. induction fuel as [|fuel IH]; intros v m; simpl.
  - apply bind_not_err; [apply bucketIndex_no_throw|]. intros i.
    apply bind_not_err; [apply vec_at_no_throw|]. intros bucket.
    destruct (chain_mem v.1 bucket); [done|]. by case_decide.
  - apply bind_not_err; [apply bucketIndex_no_throw|]. intros i.
    apply bind_not_err; [apply vec_at_no_throw|]. intros bucket.
    destruct (chain_mem v.1 bucket); [done|]. case_decide; [|done].
    by apply rehash_with_no_throw.
Qed.

Lemma erase_no_throw fuel k m : erase fuel k m ≠ Err OutOfRange.
Proof.
  unfold erase.
  apply bind_not_err; [apply bucketIndex_no_throw|]. intros i.
  apply bind_not_err; [apply vec_at_no_throw|]. intros bucket.
  destruct (chain_find k bucket); [|done].
  destruct (shrink_check _ _); [|done].
  apply rehash_with_no_throw, insert_no_throw.
Qed.

Lemma find_no_throw k m : find k m ≠ Err OutOfRange.
Proof.
  unfold find.
  apply bind_not_err; [apply bucketIndex_no_throw|]. intros i.
  apply bind_not_err; [apply vec_at_no_throw|]. intros bucket.
  destruct (chain_find k bucket); [|done].
  apply bind_not_err; [apply bucketIndex_no_throw|]. done.
Qed.

Lemma iterator_deref_no_throw m it : iterator_deref m it ≠ Err OutOfRange.
Proof.
  unfold iterator_deref. apply bind_not_err; [apply vec_at_no_throw|].
  intros chain. destruct (elementIt it) as [j|]; [|done]. by destruct (chain !! j).
Qed.

Lemma iterator_incr_no_throw m it : iterator_incr m it ≠ Err OutOfRange.
Proof.
  unfold iterator_incr. case_decide; [done|].
  apply bind_not_err; [apply vec_at_no_throw|].
  intros chain. destruct (elementIt it) as [j|]; [|done]. by case_decide.
Qed.

Lemma iterator_assign_no_throw m it value :
  iterator_assign m it value ≠ Err OutOfRange.
Proof.
  unfold iterator_assign. apply bind_not_err; [apply iterator_deref_no_throw|].
  intros e. apply bind_not_err; [apply vec_at_no_throw|]. done.
Qed.

Lemma range_for_no_throw {S : Type} fuel m it (body : MyPair → S → result S) s :
  (∀ x s', body x s' ≠ Err OutOfRange) →
  range_for fuel m it body s ≠ Err OutOfRange.
Proof.
  intros Hbody. revert it s. induction fuel as [|fuel IH]; intros it s; simpl.
  - by destruct (iterator_eq it (end_ m)).
  - destruct (iterator_eq it (end_ m)); [done|].
    apply bind_not_err; [apply iterator_deref_no_throw|]. intros x.
    apply bind_not_err; [apply Hbody|]. intros s'.
    apply bind_not_err; [apply iterator_incr_no_throw|]. intros it'. apply IH.
Qed.

Lemma indexAccess_no_throw ValueType_default fuel k m :
  indexAccess ValueType_default fuel k m ≠ Err OutOfRange.
Proof.
  unfold indexAccess. apply bind_not_err; [apply find_no_throw|]. intros it.
  apply bind_not_err.
  - destruct (iterator_eq it (end_ m)); [|done].
    apply bind_not_err; [apply insert_no_throw|]. intros m1.
    apply bind_not_err; [apply find_no_throw|]. done.
  - intros r. apply bind_not_err; [apply iterator_deref_no_throw|]. done.
Qed.

Lemma HashMap_range_no_throw fuel items (_hasher : KeyType → nat) :
  HashMap_range (ValueType:=ValueType) fuel items _hasher ≠ Err OutOfRange.
Proof.
  unfold HashMap_range. apply bind_not_err.
  - apply rehash_with_no_throw, insert_no_throw.
  - intros m. apply for_each_not_err, insert_no_throw.
Qed.

Lemma HashMap_copy_no_throw fuel (other : Map) :
  HashMap_copy fuel other ≠ Err OutOfRange.
Proof.
  unfold HashMap_copy. apply bind_not_err.
  - apply rehash_with_no_throw, insert_no_throw.
  - intros m. apply range_for_no_throw, insert_no_throw.
Qed.

(** *** Facts used by several claims *)

Lemma reachable_capacity_pos ValueType_default m :
  reachable ValueType_default m → 1 ≤ capacity m.
Proof. intros [Hi _]%reachable_wf. apply (inv_capacity _ Hi). Qed.

(** On a well-formed map the shrink test of [erase] never succeeds: the
    chain it measures is part of the table whose entries are counted. *)
Lemma erase_keeps_capacity fuel m k m' :
  wf m → erase fuel k m = Ok m' → capacity m' = capacity m.
Proof.
  intros [Hi Hload] Hrun. destruct (decide (k ∈ (entries m).*1)) as [Hin|Hnotin].
  - apply list_elem_of_fmap in Hin as ([k' x] & -> & Hin).
    destruct (erase_present fuel m k' x Hi Hin) as (m1 & Hrun1 & ? & ? & Hl & _).
    simpl in Hrun. rewrite Hrun in Hrun1. by injection Hrun1 as ->.
  - rewrite erase_absent in Hrun by (done || apply Hi). by injection Hrun as <-.
Qed.

(** ** The claims *)

(** C1. On every reachable map: if [k] is present with value [v1],
    [insert (k, v2)] returns the map unchanged, so the stored value stays
    [v1] and [size] stays the same; if [k] is absent, [insert (k, v2)]
    returns a map whose entries are the old ones and [(k, v2)], whose
    [size] is one more, and where [at k] is [v2]. *)
Theorem insert_first_write_wins ValueType_default fuel m k (v1 v2 : ValueType) :
  reachable ValueType_default m →
  (at_ k m = (Ok v1, m) →
     ∃ m', insert fuel (k, v2) m = Ok m' ∧ m' = m ∧
           at_ k m' = (Ok v1, m') ∧ size m' = size m) ∧
  (at_ k m = (Err OutOfRange, m) →
     ∃ m', insert (S fuel) (k, v2) m = Ok m' ∧
           entries m' ≡ₚ (k, v2) :: entries m ∧
           size m' = S (size m) ∧
           at_ k m' = (Ok v2, m')).
Proof.
  intros Hwf%reachable_wf. pose proof Hwf as [Hi Hload]. split.
  - intros Hat. exists m. split; [|done].
    apply insert_present; [apply Hi | apply Hi |]. simpl.
    apply (at_Ok m k v1 Hi) in Hat. apply list_elem_of_fmap. by exists (k, v1).
  - intros Hnotin%(at_OutOfRange m k Hi).
    destruct (insert_spec fuel m (k, v2) Hwf)
      as (m' & Hrun & [Hi' Hload'] & _ & [[Hin _]|(_ & Hperm & _)]); [done|].
    exists m'. split; [done|]. split; [done|]. split.
    + unfold size. rewrite (inv_count _ Hi'), Hperm. simpl.
      by rewrite <- (inv_count _ Hi).
    + apply (at_Ok m' k v2 Hi'). rewrite Hperm. apply elem_of_cons. auto.
Qed.

(** C2, amended.  On every reachable map a call of [insert] completes,
    and whenever it completes the map has [size < capacity].  The grow
    rehash happens exactly when the new entry makes [size >= capacity],
    and the capacity it leaves is
    [static_cast<size_t>(size * MaxLoadFactor + 1)] for the new [size],
    evaluated in double arithmetic. *)
Theorem insert_load_factor_bound ValueType_default fuel m v :
  reachable ValueType_default m →
  (∃ m', insert (S fuel) v m = Ok m') ∧
  (∀ fuel' m', insert fuel' v m = Ok m' →
     size m' < capacity m' ∧
     length (entries m') < capacity m' ∧
     (v.1 ∈ (entries m).*1 → m' = m) ∧
     ((v.1 ∉ (entries m).*1) → S (size m) < capacity m →
      size m' = S (size m) ∧ capacity m' = capacity m) ∧
     ((v.1 ∉ (entries m).*1) → capacity m ≤ S (size m) →
      size m' = S (size m) ∧
      capacity m' =
        to_size_t (double_add (double_mul (of_size_t (size m')) MaxLoadFactor)
                              (double_of_Z 1)))).
Proof.
  intros Hwf%reachable_wf. split.
  - destruct (insert_spec fuel m v Hwf) as (m' & Hrun & _). by exists m'.
  - intros fuel' m' Hrun.
    destruct (insert_Ok_wf fuel' m v m' Hwf Hrun) as ([Hi' Hload'] & _ & Hcases).
    split; [done|]. split; [by rewrite <- (inv_count _ Hi')|].
    assert (Hsize : (v.1 ∉ (entries m).*1) → keyCount m' = S (keyCount m)).
    { intros Hnotin. destruct Hcases as [[Hin _]|(_ & Hperm & _)]; [done|].
      rewrite (inv_count _ Hi'), Hperm. simpl.
      destruct Hwf as [Hi _]. by rewrite <- (inv_count _ Hi). }
    unfold capacity, size in *. split; [|split].
    + intros Hin. by destruct Hcases as [[_ ?]|[? _]].
    + intros Hnotin Hroom. destruct Hcases as [[Hin _]|(_ & _ & Hcap)]; [done|].
      rewrite decide_False in Hcap by lia. auto.
    + intros Hnotin Hfull. destruct Hcases as [[Hin _]|(_ & _ & Hcap)]; [done|].
      rewrite decide_True in Hcap by done.
      split; [auto|]. by rewrite Hsize, Hcap.
Qed.

(** C3. On every reachable map the loop from [begin()] to [end()] by
    [operator++] terminates and visits the entries stored in the buckets,
    in bucket order: [size()] of them, with pairwise distinct keys, and
    exactly the pairs that [at] returns.  On an empty map [begin()] is
    [end()]. *)
Theorem iteration_complete ValueType_default fuel m :
  reachable ValueType_default m → size m ≤ fuel →
  ∃ visited, traverse fuel m = Ok visited ∧
    visited = mjoin (data m) ∧
    length visited = size m ∧
    NoDup visited.*1 ∧
    (∀ k x, (k, x) ∈ visited ↔ at_ k m = (Ok x, m)) ∧
    (empty m = true → begin m = end_ m ∧ iterator_eq (begin m) (end_ m) = true).
Proof.
  intros [Hi Hload]%reachable_wf Hfuel. exists (entries m).
  unfold size in *. split; [|split; [done|split; [|split; [|split]]]].
  - apply traverse_entries. by rewrite <- (inv_count _ Hi).
  - by rewrite <- (inv_count _ Hi).
  - apply (inv_unique _ Hi).
  - intros k x. symmetry. by apply at_Ok.
  - intros Hempty%bool_decide_eq_true. unfold size in Hempty.
    assert (Hnil : entries m = []).
    { apply length_zero_iff_nil. by rewrite <- (inv_count _ Hi). }
    pose proof (position_begin m) as Hpos. rewrite Hnil in Hpos.
    apply position_nil in Hpos. rewrite Hpos. split; [done|apply end_eq_end].
Qed.

(** C4. On every reachable map [at k] returns the value stored for [k]
    when [k] is present and throws [std::out_of_range] exactly when [k] is
    absent; in both cases the map after the call is the map before it.  No
    other member throws [std::out_of_range], on any map at all. *)
Theorem at_spec ValueType_default m k :
  reachable ValueType_default m →
  (∀ x, (k, x) ∈ entries m ↔ at_ k m = (Ok x, m)) ∧
  (k ∉ (entries m).*1 ↔ at_ k m = (Err OutOfRange, m)) ∧
  ((∃ x, at_ k m = (Ok x, m)) ∨ at_ k m = (Err OutOfRange, m)) ∧
  (at_ k m).2 = m ∧
  (∀ fuel v (m0 : Map), insert fuel v m0 ≠ Err OutOfRange) ∧
  (∀ fuel key (m0 : Map), erase fuel key m0 ≠ Err OutOfRange) ∧
  (∀ fuel n (m0 : Map), rehash fuel n m0 ≠ Err OutOfRange) ∧
  (∀ key (m0 : Map), find key m0 ≠ Err OutOfRange) ∧
  (∀ fuel key (m0 : Map),
     indexAccess ValueType_default fuel key m0 ≠ Err OutOfRange) ∧
  (∀ (m0 : Map) it, iterator_deref m0 it ≠ Err OutOfRange) ∧
  (∀ (m0 : Map) it, iterator_incr m0 it ≠ Err OutOfRange) ∧
  (∀ (m0 : Map) it value, iterator_assign m0 it value ≠ Err OutOfRange) ∧
  (∀ fuel (m0 : Map), traverse fuel m0 ≠ Err OutOfRange) ∧
  (∀ fuel items (h : KeyType → nat),
     HashMap_range (ValueType:=ValueType) fuel items h ≠ Err OutOfRange) ∧
  (∀ fuel (m0 : Map), HashMap_copy fuel m0 ≠ Err OutOfRange).
Proof.
  intros [Hi Hload]%reachable_wf.
  split; [intros x; symmetry; by apply at_Ok|].
  split; [symmetry; by apply at_OutOfRange|].
  split; [by apply at_total|].
  split; [done|].
  split; [intros; apply insert_no_throw|].
  split; [intros; apply erase_no_throw|].
  split; [intros; apply rehash_with_no_throw, insert_no_throw|].
  split; [intros; apply find_no_throw|].
  split; [intros; apply indexAccess_no_throw|].
  split; [intros; apply iterator_deref_no_throw|].
  split; [intros; apply iterator_incr_no_throw|].
  split; [intros; apply iterator_assign_no_throw|].
  split; [intros; by apply range_for_no_throw|].
  split; [intros; apply HashMap_range_no_throw|].
  intros; apply HashMap_copy_no_throw.
Qed.

(** C5. On every reachable map [operator[]] returns normally.  If [k] is
    present the map is unchanged and the reference designates the value
    stored for [k]; if [k] is absent the map is the one [insert] of
    [(k, ValueType())] gives, [size] is one more, and the reference
    designates that default value.  Either way a write through the
    reference is what [at k] returns afterwards.  On an empty map the
    result has [size] 1. *)
Theorem indexAccess_spec ValueType_default fuel m k :
  reachable ValueType_default m →
  (∃ m' it, indexAccess ValueType_default (S fuel) k m = Ok (m', it)) ∧
  (∀ x, at_ k m = (Ok x, m) →
     ∃ it, indexAccess ValueType_default fuel k m = Ok (m, it) ∧
           iterator_deref m it = Ok (k, x)) ∧
  (at_ k m = (Err OutOfRange, m) →
     ∃ m' it, indexAccess ValueType_default (S fuel) k m = Ok (m', it) ∧
              insert (S fuel) (k, ValueType_default) m = Ok m' ∧
              size m' = S (size m) ∧
              iterator_deref m' it = Ok (k, ValueType_default) ∧
              at_ k m' = (Ok ValueType_default, m')) ∧
  (∀ fuel' m' it value,
     indexAccess ValueType_default fuel' k m = Ok (m', it) →
     ∃ m'', iterator_assign m' it value = Ok m'' ∧
            at_ k m'' = (Ok value, m'') ∧ size m'' = size m') ∧
  (empty m = true →
     ∃ m' it, indexAccess ValueType_default (S fuel) k m = Ok (m', it) ∧
              size m' = 1 ∧
              iterator_deref m' it = Ok (k, ValueType_default)).
Proof.
  intros Hwf%reachable_wf. pose proof Hwf as [Hi Hload].
  assert (Hpresent : ∀ fuel0 x, at_ k m = (Ok x, m) →
     ∃ it, indexAccess ValueType_default fuel0 k m = Ok (m, it) ∧
           iterator_deref m it = Ok (k, x)).
  { intros fuel0 x Hat%(at_Ok m k x Hi). by apply indexAccess_present. }
  assert (Habsent : at_ k m = (Err OutOfRange, m) →
     ∃ m' it, indexAccess ValueType_default (S fuel) k m = Ok (m', it) ∧
              insert (S fuel) (k, ValueType_default) m = Ok m' ∧
              size m' = S (size m) ∧
              iterator_deref m' it = Ok (k, ValueType_default) ∧
              at_ k m' = (Ok ValueType_default, m')).
  { intros Hnotin%(at_OutOfRange m k Hi).
    destruct (insert_spec fuel m (k, ValueType_default) Hwf)
      as (m' & Hrun & [Hi' Hload'] & _ & [[Hin _]|(_ & Hperm & _)]); [done|].
    assert (Hin' : (k, ValueType_default) ∈ entries m').
    { rewrite Hperm. apply elem_of_cons. auto. }
    destruct (indexAccess_absent ValueType_default (S fuel) m k m' Hi Hnotin Hrun Hi' Hin')
      as (it & Hidx & Hderef).
    exists m', it. split; [done|]. split; [done|]. split; [|split; [done|]].
    - unfold size. rewrite (inv_count _ Hi'), Hperm. simpl.
      by rewrite <- (inv_count _ Hi).
    - by apply at_Ok. }
  split; [|split; [by apply Hpresent|split; [done|split]]].
  - destruct (at_total m k Hi) as [[x Hx]|Hnone].
    + destruct (Hpresent (S fuel) x Hx) as (it & ? & _). by exists m, it.
    + destruct (Habsent Hnone) as (m' & it & ? & _). by exists m', it.
  - intros fuel' m' it value Hidx.
    pose proof (indexAccess_Ok_wf _ _ _ _ _ _ Hwf Hidx) as Hwf'.
    assert (∃ x, iterator_deref m' it = Ok (k, x)) as [x Hderef].
    { destruct (at_total m k Hi) as [[x Hx]|Hnone].
      - destruct (Hpresent fuel' x Hx) as (it0 & Hidx0 & Hderef).
        rewrite Hidx in Hidx0. injection Hidx0 as -> ->. by exists x.
      - apply (at_OutOfRange m k Hi) in Hnone.
        unfold indexAccess in Hidx.
        rewrite find_absent in Hidx by (done || apply Hi). simpl in Hidx.
        rewrite end_eq_end in Hidx.
        destruct (insert fuel' (k, ValueType_default) m) as [m1|e] eqn:Hins;
          simpl in Hidx; [|done].
        destruct (insert_Ok_wf fuel' m _ m1 Hwf Hins)
          as ([Hi1 _] & _ & [[Hin _]|(_ & Hperm & _)]); [done|].
        assert (Hin1 : (k, ValueType_default) ∈ entries m1).
        { rewrite Hperm. apply elem_of_cons. auto. }
        destruct (find_present m1 k _ Hi1 Hin1) as (it1 & Hfind & _ & Hderef).
        rewrite Hfind in Hidx. simpl in Hidx. rewrite Hderef in Hidx.
        simpl in Hidx. injection Hidx as <- <-. by eexists. }
    destruct (iterator_assign_at m' it k x value Hwf' Hderef)
      as (m'' & ? & _ & ? & ?). by exists m''.
  - intros Hempty%bool_decide_eq_true.
    destruct Habsent as (m' & it & ? & _ & Hsize & ? & _).
    + apply (at_OutOfRange m k Hi). unfold size in Hempty.
      rewrite (inv_count _ Hi) in Hempty. apply length_zero_iff_nil in Hempty.
      rewrite Hempty. by intros ?%elem_of_nil.
    + exists m', it. rewrite Hempty in Hsize. done.
Qed.

(** C8. On every reachable map where [k] is present, [erase k] followed by
    [insert (k, v2)] completes, [at k] then returns [v2], and [size] is
    what it was before the [erase]. *)
Theorem erase_then_insert ValueType_default fuel m k x (v2 : ValueType) :
  reachable ValueType_default m → at_ k m = (Ok x, m) →
  ∃ m1 m2, erase fuel k m = Ok m1 ∧
           insert (S fuel) (k, v2) m1 = Ok m2 ∧
           at_ k m2 = (Ok v2, m2) ∧
           size m2 = size m.
Proof.
  intros Hwf%reachable_wf Hat. pose proof Hwf as [Hi Hload].
  apply (at_Ok m k x Hi) in Hat.
  destruct (erase_present fuel m k x Hi Hat) as (m1 & Herase & Hi1 & _ & Hl & Hk & Hperm).
  assert (Hwf1 : wf m1) by (split; [done|lia]).
  pose proof (key_not_in_rest (entries m) _ k x (inv_unique _ Hi) Hperm) as Hnotin.
  destruct (insert_spec fuel m1 (k, v2) Hwf1)
    as (m2 & Hins & [Hi2 _] & _ & [[Hin _]|(_ & Hperm2 & _)]); [done|].
  exists m1, m2. split; [done|]. split; [done|]. split.
  - apply (at_Ok m2 k v2 Hi2). rewrite Hperm2. apply elem_of_cons. auto.
  - unfold size. rewrite (inv_count _ Hi2), Hperm2, (inv_count _ Hi), Hperm. done.
Qed.

(** C9. On every reachable map, which includes every map a constructor
    returns, there is at least one bucket, [bucketIndex] is the hash modulo
    that bucket count, and every member that evaluates [bucketIndex], in
    its own body or in the reinsertion loop of a rehash it starts, returns
    normally: no evaluation divides by zero. *)
Theorem bucketIndex_never_divides_by_zero ValueType_default m :
  reachable ValueType_default m →
  1 ≤ capacity m ∧
  (∀ key, bucketIndex m key = Ok (hasher m key mod capacity m)) ∧
  (∀ fuel v, ∃ m', insert (S fuel) v m = Ok m') ∧
  (∀ fuel key, ∃ m', erase fuel key m = Ok m') ∧
  (∀ key, ∃ it, find key m = Ok it) ∧
  (∀ fuel key, ∃ r, indexAccess ValueType_default (S fuel) key m = Ok r) ∧
  (∀ key, (at_ key m).1 ≠ Err DivisionByZero) ∧
  (∀ fuel, size m ≤ fuel → ∃ m', HashMap_copy fuel m = Ok m') ∧
  (∀ fuel items (h : KeyType → nat),
     ∃ m', HashMap_range (ValueType:=ValueType) fuel items h = Ok m' ∧
           1 ≤ capacity m').
Proof.
  intros Hwf%reachable_wf. pose proof Hwf as [Hi Hload].
  pose proof (inv_capacity m Hi) as Hc.
  split; [done|]. split; [intros; by apply bucketIndex_ok|].
  split; [|split; [|split; [|split; [|split; [|split]]]]].
  - intros fuel v. destruct (insert_spec fuel m v Hwf) as (m' & ? & _). by exists m'.
  - intros fuel key. destruct (decide (key ∈ (entries m).*1)) as [Hin|Hnotin].
    + apply list_elem_of_fmap in Hin as ([k' x] & -> & Hin).
      destruct (erase_present fuel m k' x Hi Hin) as (m' & ? & _). by exists m'.
    + exists m. apply erase_absent; [done|apply Hi|done].
  - intros key. destruct (decide (key ∈ (entries m).*1)) as [Hin|Hnotin].
    + apply list_elem_of_fmap in Hin as ([k' x] & -> & Hin).
      destruct (find_present m k' x Hi Hin) as (it & ? & _). by exists it.
    + exists (end_ m). apply find_absent; [done|apply Hi|done].
  - intros fuel key. destruct (decide (key ∈ (entries m).*1)) as [Hin|Hnotin].
    + apply list_elem_of_fmap in Hin as ([k' x] & -> & Hin).
      destruct (indexAccess_present ValueType_default (S fuel) m k' x Hi Hin)
        as (it & ? & _). by eexists.
    + destruct (insert_spec fuel m (key, ValueType_default) Hwf)
        as (m' & Hrun & [Hi' _] & _ & [[Hin _]|(_ & Hperm & _)]); [done|].
      assert (Hin' : (key, ValueType_default) ∈ entries m').
      { rewrite Hperm. apply elem_of_cons. auto. }
      destruct (indexAccess_absent ValueType_default (S fuel) m key m'
                  Hi Hnotin Hrun Hi' Hin') as (it & ? & _). by eexists.
  - intros key. destruct (at_total m key Hi) as [[x ->]| ->]; done.
  - intros fuel Hfuel. destruct (HashMap_copy_spec fuel m Hwf) as (m' & ? & _).
    + unfold size in Hfuel. by rewrite <- (inv_count _ Hi).
    + by exists m'.
  - intros fuel items h.
    destruct (HashMap_range_spec fuel items h) as (m' & ? & [Hi' _] & _).
    exists m'. split; [done|]. apply (inv_capacity _ Hi').
Qed.

(** C10. On every reachable map [insert (k, v)] completes and, for every
    key [k'] other than [k], [at k'] gives after the insert what it gave
    before it, whether or not the insert rehashed. *)
Theorem insert_frame ValueType_default fuel m k (x : ValueType) :
  reachable ValueType_default m →
  ∃ m', insert (S fuel) (k, x) m = Ok m' ∧
        ∀ k', k' ≠ k → (at_ k' m').1 = (at_ k' m).1.
Proof.
  intros Hwf%reachable_wf. pose proof Hwf as [Hi Hload].
  destruct (insert_spec fuel m (k, x) Hwf)
    as (m' & Hrun & [Hi' _] & _ & Hcases).
  exists m'. split; [done|]. intros k' Hne.
  destruct Hcases as [[_ ->]|(_ & Hperm & _)]; [done|].
  apply at_fst_eq; [done|done|]. intros x'.
  by apply (elem_of_entries_cons _ _ (k, x)).
Qed.

(** ** Further properties of the class *)

(** *** Lookups as association-list lookups *)

Lemma chain_at_perm k (l l' : list MyPair) :
  NoDup l.*1 → l ≡ₚ l' → chain_at k l = chain_at k l'.
Proof.
  intros Hnd Hperm.
  assert (Hnd' : NoDup l'.*1) by (by rewrite <- Hperm).
  destruct (chain_at k l) as [x|] eqn:E.
  - apply chain_at_Some_elem in E. rewrite Hperm in E.
    symmetry. by apply chain_at_NoDup.
  - apply chain_at_None in E. rewrite Hperm in E.
    symmetry. by apply chain_at_None.
Qed.

Lemma at_fst_entries m k :
  inv m →
  (at_ k m).1 = match chain_at k (entries m) with
                | Some x => Ok x
                | None => Err OutOfRange
                end.
Proof.
  intros Hi. destruct (chain_at k (entries m)) as [x|] eqn:E.
  - apply chain_at_Some_elem, (at_Ok m k x Hi) in E. by rewrite E.
  - apply chain_at_None, (at_OutOfRange m k Hi) in E. by rewrite E.
Qed.

Lemma at_fst_perm m m' k :
  inv m → inv m' → entries m' ≡ₚ entries m → (at_ k m').1 = (at_ k m).1.
Proof.
  intros Hi Hi' Hperm. rewrite !at_fst_entries by done.
  by rewrite (chain_at_perm k _ _ (inv_unique _ Hi') Hperm).
Qed.

(** *** Sequences of [insert] *)

Lemma insert_capacity_mono fuel m v m' :
  wf m → insert fuel v m = Ok m' → length (data m) ≤ length (data m').
Proof.
  intros Hwf Hrun.
  destruct (insert_Ok_wf fuel m v m' Hwf Hrun) as (_ & _ & [[_ ->]|(_ & _ & ->)]);
    [done|].
  case_decide; [|done].
  pose proof (grown_bucket_count_gt (S (keyCount m))). lia.
Qed.

(** What a completed sequence of inserts leaves: the first value written
    for each key wins. *)
Lemma for_each_insert_Ok fuel items m m' :
  wf m → for_each (insert fuel) items m = Ok m' →
  wf m' ∧ hasher m' = hasher m ∧
  length (data m) ≤ length (data m') ∧
  (∀ k, k ∈ (entries m').*1 ↔ k ∈ (entries m).*1 ∨ k ∈ items.*1) ∧
  (∀ k, chain_at k (entries m') =
          match chain_at k (entries m) with
          | Some x => Some x
          | None => chain_at k items
          end).
Proof.
  revert m. induction items as [|v items IH]; intros m Hwf Hrun; simpl in *.
  - injection Hrun as <-. split_and!; try done.
    + intros k. split; [auto|]. by intros [?|?%elem_of_nil].
    + intros k. by destruct (chain_at k (entries m)).
  - destruct (insert fuel v m) as [m1|e] eqn:Hins; simpl in Hrun; [|done].
    pose proof (insert_capacity_mono fuel m v m1 Hwf Hins) as Hcap.
    destruct (insert_Ok_wf fuel m v m1 Hwf Hins) as (Hwf1 & Hh1 & Hcases).
    destruct (IH m1 Hwf1 Hrun) as (Hwf' & Hh' & Hcap' & Hkeys & Hlook).
    split; [done|]. split; [congruence|]. split; [lia|].
    destruct Hcases as [[Hin ->]|(Hnotin & Hperm & _)].
    + split.
      * intros k. rewrite Hkeys, elem_of_cons. split; [tauto|].
        intros [?|[->|?]]; auto.
      * intros k. rewrite Hlook.
        destruct (chain_at k (entries m)) as [x|] eqn:E; [done|].
        rewrite decide_False; [done|]. intros <-. by apply chain_at_None in E.
    + split.
      * intros k. rewrite Hkeys, Hperm. simpl. rewrite !elem_of_cons. tauto.
      * intros k. rewrite Hlook.
        rewrite (chain_at_perm k _ _ (inv_unique _ (proj1 Hwf1)) Hperm). simpl.
        destruct (decide (v.1 = k)) as [<-|Hne]; [|done].
        apply chain_at_None in Hnotin. by rewrite Hnotin.
Qed.

Lemma for_each_insert_total fuel items m :
  wf m → ∃ m', for_each (insert (S fuel)) items m = Ok m'.
Proof.
  revert m. induction items as [|v items IH]; intros m Hwf.
  - by exists m.
  - destruct (insert_spec fuel m v Hwf) as (m1 & Hins & Hwf1 & _).
    destruct (IH m1 Hwf1) as [m' Hrun]. exists m'.
    cbn [for_each]. rewrite Hins. exact Hrun.
Qed.

(** The number of entries, from the keys alone. *)
Lemma size_of_keys m (keys : list KeyType) :
  inv m → (∀ k, k ∈ (entries m).*1 ↔ k ∈ keys) →
  size m = length (remove_dups keys).
Proof.
  intros Hi Hkeys. unfold size. rewrite (inv_count _ Hi), <- (length_fmap fst).
  apply Permutation_length, NoDup_Permutation.
  - apply (inv_unique _ Hi).
  - apply NoDup_remove_dups.
  - intros k. by rewrite elem_of_remove_dups.
Qed.

Lemma wf_empty_table (h : KeyType → nat) n :
  0 < n → wf (mkHashMap (ValueType:=ValueType) h (replicate n []) 0).
Proof.
  intros Hn. split; [split|]; simpl.
  - rewrite length_replicate. lia.
  - unfold entries; simpl. by rewrite join_replicate_nil.
  - unfold entries; simpl. rewrite join_replicate_nil. constructor.
  - intros i chain v [-> _]%lookup_replicate Hv. by apply elem_of_nil in Hv.
  - rewrite length_replicate. lia.
Qed.

(** What a run of [insert] over [items] leaves of an empty table of [c]
    buckets. *)
Lemma insert_all_into_empty fuel (items : list MyPair) (h : KeyType → nat) c m' :
  0 < c →
  for_each (insert fuel) items (mkHashMap h (replicate c []) 0) = Ok m' →
  wf m' ∧ hasher m' = h ∧ c ≤ capacity m' ∧
  (length items < c → capacity m' = c) ∧
  size m' = length (remove_dups items.*1) ∧
  ∀ k, (at_ k m').1 = match chain_at k items with
                      | Some x => Ok x
                      | None => Err OutOfRange
                      end.
Proof.
  intros Hc Hrun. pose proof (wf_empty_table h c Hc) as Hwf0.
  destruct (for_each_insert_Ok fuel items _ m' Hwf0 Hrun)
    as (Hwf' & Hh & Hcap & Hkeys & Hlook).
  simpl in Hcap, Hh. rewrite length_replicate in Hcap.
  unfold entries at 2 in Hkeys. unfold entries at 2 in Hlook.
  simpl in Hkeys, Hlook. rewrite join_replicate_nil in Hkeys, Hlook.
  simpl in Hkeys, Hlook.
  split; [done|]. split; [done|]. split; [done|]. split; [|split].
  - intros Hroom.
    destruct (for_each_insert fuel items _ (proj1 Hwf0))
      as (m2 & Hrun2 & _ & _ & Hl & _).
    { simpl. by rewrite length_replicate. }
    rewrite Hrun in Hrun2. injection Hrun2 as <-.
    unfold capacity. rewrite Hl. simpl. by rewrite length_replicate.
  - apply size_of_keys; [apply Hwf'|]. intros k. rewrite (Hkeys k).
    split; [by intros [?%elem_of_nil|?] | auto].
  - intros k. rewrite at_fst_entries by apply Hwf'. by rewrite (Hlook k).
Qed.

(** *** [erase] keeps the table *)

Lemma filter_key_middle (l1 l2 : list MyPair) k x :
  NoDup (l1 ++ (k, x) :: l2).*1 →
  filter (λ e : MyPair, e.1 ≠ k) (l1 ++ (k, x) :: l2) = l1 ++ l2.
Proof.
  rewrite fmap_app, fmap_cons. simpl.
  intros (Hnd1 & Hdis & [Hk2 Hnd2]%NoDup_cons)%NoDup_app.
  assert (Hkeep : ∀ l : list MyPair, k ∉ l.*1 →
            filter (λ e : MyPair, e.1 ≠ k) l = l).
  { clear. induction l as [|e l IH]; [done|].
    rewrite fmap_cons, not_elem_of_cons. intros [Hne Hl].
    rewrite filter_cons_True by (simpl; congruence). by rewrite IH. }
  rewrite filter_app, filter_cons_False by (simpl; tauto).
  rewrite !Hkeep; [done|done|].
  intros Hin. apply (Hdis k Hin). apply elem_of_cons. auto.
Qed.

(** [erase] of a present key: the very table, with one node taken out. *)
Lemma erase_present_data fuel m k x :
  inv m → (k, x) ∈ entries m →
  ∃ bucket j,
    data m !! (hasher m k mod length (data m)) = Some bucket ∧
    bucket !! j = Some (k, x) ∧
    erase fuel k m =
      Ok (mkHashMap (hasher m)
            (<[hasher m k mod length (data m) := delete j bucket]> (data m))
            (pred (keyCount m))).
Proof.
  intros Hi Hin. pose proof (inv_capacity m Hi) as Hc.
  destruct (bucket_exists m k Hc) as [bucket Hb].
  pose proof (entries_bucket m (k, x) bucket (inv_placed m Hi) Hb Hin) as Hinb.
  destruct (chain_find_is_Some k bucket) as [j Hj].
  { apply list_elem_of_fmap. by exists (k, x). }
  destruct (chain_find_Some k bucket j Hj) as (x' & Hjx & Hat).
  rewrite (chain_at_NoDup k bucket x (bucket_NoDup m _ _ (inv_unique m Hi) Hb) Hinb) in Hat.
  injection Hat as <-.
  destruct (erase_node_inv m k x bucket j Hi Hb Hjx) as (_ & _ & Hlen).
  exists bucket, j. split; [done|]. split; [done|].
  rewrite (erase_present_unfold fuel m k bucket j Hc Hb Hj).
  by rewrite shrink_check_le.
Qed.

Lemma erase_entries_filter fuel m k m' :
  inv m → erase fuel k m = Ok m' →
  entries m' = filter (λ e : MyPair, e.1 ≠ k) (entries m).
Proof.
  intros Hi Hrun. destruct (decide (k ∈ (entries m).*1)) as [Hin|Hnotin].
  - apply list_elem_of_fmap in Hin as ([k' x] & -> & Hin). simpl in *.
    destruct (erase_present_data fuel m k' x Hi Hin) as (bucket & j & Hb & Hj & Hrun1).
    rewrite Hrun in Hrun1. injection Hrun1 as ->.
    pose proof (inv_unique _ Hi) as Hnd. unfold entries in *. simpl.
    destruct (join_insert (data m) _ bucket (delete j bucket) Hb)
      as (pre & post & Hold & ->).
    assert (Hold' : mjoin (data m) =
              (pre ++ take j bucket) ++ (k', x) :: (drop (S j) bucket ++ post)).
    { rewrite Hold. rewrite <- (take_drop_middle bucket j (k', x) Hj) at 1.
      by rewrite <- !(assoc_L (++)). }
    rewrite Hold' in Hnd |- *. rewrite (filter_key_middle _ _ k' x Hnd).
    by rewrite delete_take_drop, <- !(assoc_L (++)).
  - rewrite erase_absent in Hrun by (done || apply Hi). injection Hrun as <-.
    symmetry. clear Hi. induction (entries m) as [|e l IH]; [done|].
    rewrite fmap_cons, not_elem_of_cons in Hnotin. destruct Hnotin as [Hne Hl].
    rewrite filter_cons_True by (simpl; congruence). by rewrite IH.
Qed.

Lemma erase_total fuel m k : inv m → ∃ m', erase fuel k m = Ok m'.
Proof.
  intros Hi. destruct (decide (k ∈ (entries m).*1)) as [Hin|Hnotin].
  - apply list_elem_of_fmap in Hin as ([k' x] & -> & Hin).
    destruct (erase_present fuel m k' x Hi Hin) as (m' & ? & _). by exists m'.
  - exists m. apply erase_absent; [apply Hi|apply Hi|done].
Qed.

Lemma chain_at_filter_ne k k' (l : list MyPair) :
  k' ≠ k → chain_at k' (filter (λ e : MyPair, e.1 ≠ k) l) = chain_at k' l.
Proof.
  intros Hne. induction l as [|e l IH]; [done|].
  destruct (decide (e.1 = k)) as [He|He].
  - rewrite filter_cons_False by tauto. simpl.
    rewrite decide_False by congruence. done.
  - rewrite filter_cons_True by done. simpl. by rewrite IH.
Qed.

Lemma chain_at_filter_eq k (l : list MyPair) :
  chain_at k (filter (λ e : MyPair, e.1 ≠ k) l) = None.
Proof.
  apply chain_at_None. intros ([k0 x] & -> & [Hne _]%list_elem_of_filter)%list_elem_of_fmap.
  done.
Qed.

(** *** Copying rebuilds the table bucket by bucket *)

Lemma refill_bucket fuel (h : KeyType → nat) (pre : list (list MyPair))
    (post_n n : nat) (c2 c1 : list MyPair) kc :
  length pre + S post_n = n →
  (∀ v, v ∈ c1 ++ c2 → h v.1 mod n = length pre) →
  NoDup (c1 ++ c2).*1 →
  kc + length c2 < n →
  for_each (insert fuel) c2 (mkHashMap h (pre ++ c1 :: replicate post_n []) kc)
  = Ok (mkHashMap h (pre ++ (c1 ++ c2) :: replicate post_n []) (kc + length c2)).
Proof.
  intros Hn. revert c1 kc. induction c2 as [|v c2 IH]; intros c1 kc Hidx Hnd Hroom.
  - simpl. by rewrite app_nil_r, Nat.add_0_r.
  - set (m := mkHashMap h (pre ++ c1 :: replicate post_n []) kc).
    assert (Hlen : length (data m) = n).
    { simpl. rewrite length_app. simpl. rewrite length_replicate. lia. }
    assert (Hb : data m !! (hasher m v.1 mod length (data m)) = Some c1).
    { rewrite Hlen. simpl. rewrite Hidx.
      - by apply list_lookup_middle.
      - apply elem_of_app. right. apply elem_of_cons. auto. }
    assert (Hnotin : v.1 ∉ c1.*1).
    { rewrite fmap_app, fmap_cons in Hnd.
      apply NoDup_app in Hnd as (_ & Hdis & _). intros Hin.
      apply (Hdis _ Hin). apply elem_of_cons. auto. }
    cbn [for_each].
    rewrite (insert_absent_unfold fuel m v c1) by (done || lia).
    rewrite Hlen. rewrite decide_False by (simpl in *; lia).
    cbn [mbind result_bind]. rewrite Hidx
      by (apply elem_of_app; right; apply elem_of_cons; auto).
    simpl. replace (length pre) with (length pre + 0) at 1 by lia.
    rewrite insert_app_r. simpl.
    rewrite (IH (c1 ++ [v]) (S kc)).
    + rewrite <- (assoc_L (++) c1 [v] c2). simpl. do 2 f_equal. lia.
    + by rewrite <- (assoc_L (++) c1 [v] c2).
    + by rewrite <- (assoc_L (++) c1 [v] c2).
    + simpl in Hroom. lia.
Qed.

Lemma refill_table fuel (h : KeyType → nat) (tbl : list (list MyPair)) i :
  i ≤ length tbl →
  (∀ b chain v, tbl !! b = Some chain → v ∈ chain → h v.1 mod length tbl = b) →
  NoDup (mjoin tbl).*1 →
  length (mjoin tbl) < length tbl →
  for_each (λ bucket, for_each (insert fuel) bucket) (drop i tbl)
    (mkHashMap h (take i tbl ++ replicate (length tbl - i) [])
               (length (mjoin (take i tbl))))
  = Ok (mkHashMap h tbl (length (mjoin tbl))).
Proof.
  intros Hi Hplaced Hnd Hload.
  remember (length tbl - i) as k eqn:Hk.
  revert i Hi Hk. induction k as [|k IH]; intros i Hi Hk.
  - rewrite drop_ge, take_ge by lia. simpl. by rewrite app_nil_r.
  - destruct (lookup_lt_is_Some_2 tbl i) as [c Hc]; [lia|].
    rewrite (drop_S _ _ _ Hc). cbn [for_each replicate].
    assert (Hsplit : mjoin tbl = mjoin (take (S i) tbl) ++ mjoin (drop (S i) tbl)).
    { by rewrite <- join_app, take_drop. }
    assert (Htake : take (S i) tbl = take i tbl ++ [c]) by (by apply take_S_r).
    rewrite (refill_bucket fuel h (take i tbl) k (length tbl) c []).
    + cbn [mbind result_bind]. simpl.
      specialize (IH (S i)). rewrite Htake, join_app, length_app in IH.
      simpl in IH. rewrite app_nil_r, <- (assoc_L (++)) in IH. simpl in IH.
      apply IH; lia.
    + rewrite length_take_le by lia. lia.
    + intros v Hv. simpl in Hv. rewrite length_take_le by lia. by apply (Hplaced i c).
    + simpl. rewrite Hsplit, Htake, join_app, !fmap_app in Hnd. simpl in Hnd.
      rewrite app_nil_r in Hnd.
      by apply NoDup_app in Hnd as ((_ & _ & ?)%NoDup_app & _).
    + rewrite Hsplit, Htake, join_app, !length_app in Hload. simpl in Hload.
      rewrite app_nil_r in Hload. lia.
Qed.

Lemma HashMap_copy_exact fuel (other : Map) :
  wf other → length (entries other) ≤ fuel → HashMap_copy fuel other = Ok other.
Proof.
  intros [Hi Hload] Hfuel. unfold HashMap_copy, rehash, rehash_with. simpl.
  rewrite (range_for_position fuel other (begin other) (entries other))
    by (apply position_begin || done).
  unfold entries. rewrite <- for_each_join.
  pose proof (refill_table fuel (hasher other) (data other) 0) as Hfill.
  rewrite drop_0, take_0, Nat.sub_0_r in Hfill. simpl in Hfill.
  rewrite Hfill.
  - destruct other as [h d kc]. simpl in *. f_equal. f_equal.
    symmetry. apply (inv_count _ Hi).
  - lia.
  - intros b chain v Hb Hv. by apply (inv_placed _ Hi b chain v).
  - apply (inv_unique _ Hi).
  - pose proof (inv_count _ Hi) as Hcount. unfold entries in Hcount. lia.
Qed.

Lemma chain_at_app k (l1 l2 : list MyPair) :
  chain_at k (l1 ++ l2) =
    match chain_at k l1 with
    | Some x => Some x
    | None => chain_at k l2
    end.
Proof.
  induction l1 as [|e l1 IH]; simpl; [done|]. by case_decide.
Qed.

Lemma deref_position m it e :
  iterator_deref m it = Ok e → ∃ rest, position m it (e :: rest).
Proof.
  unfold iterator_deref, vec_at. destruct it as [b [j|]]; simpl.
  - destruct (data m !! b) as [chain|] eqn:Hb; simpl; [|done].
    destruct (chain !! j) as [e'|] eqn:Hj; simpl; [|done].
    intros [= ->]. exists (drop (S j) chain ++ mjoin (drop (S b) (data m))).
    change (e :: drop (S j) chain ++ mjoin (drop (S b) (data m)))
      with ((e :: drop (S j) chain) ++ mjoin (drop (S b) (data m))).
    rewrite <- (drop_S _ _ _ Hj).
    apply position_entry; [done|]. by eapply lookup_lt_Some.
  - destruct (data m !! b); simpl; done.
Qed.

Lemma insert_lookup fuel m v m' k :
  wf m → insert fuel v m = Ok m' →
  chain_at k (entries m') =
    match chain_at k (entries m) with
    | Some x => Some x
    | None => if decide (v.1 = k) then Some v.2 else None
    end.
Proof.
  intros Hwf Hrun.
  destruct (for_each_insert_Ok fuel [v] m m' Hwf) as (_ & _ & _ & _ & Hlook).
  { simpl. by rewrite Hrun. }
  rewrite Hlook. simpl. done.
Qed.

(** ** Further theorems *)

(** X1. The class invariant: on every reachable map there is at least one
    bucket, [size] counts the entries of the table and is below the bucket
    count, no key occurs twice in the whole table, and every entry sits in
    the bucket [hasher (key) % data.size()]. *)
Theorem reachable_invariants ValueType_default m :
  reachable ValueType_default m →
  1 ≤ capacity m ∧
  size m = length (mjoin (data m)) ∧
  size m < capacity m ∧
  NoDup (mjoin (data m)).*1 ∧
  (∀ i chain k x, data m !! i = Some chain → (k, x) ∈ chain →
     hasher m k mod capacity m = i).
Proof.
  intros [[Hc Hn Hnd Hp] Hload]%reachable_wf.
  split; [done|]. split; [done|]. split; [done|]. split; [done|].
  intros i chain k x Hi Hin. by apply (Hp i chain (k, x)).
Qed.

(** X2. On every reachable map [find k] returns [end()] exactly when
    [at k] throws, and otherwise an iterator in the bucket of [k] that
    dereferences to [k] and the value [at k] returns. *)
Theorem find_agrees_with_at ValueType_default m k :
  reachable ValueType_default m →
  ∃ it, find k m = Ok it ∧
    (iterator_eq it (end_ m) = true ↔ at_ k m = (Err OutOfRange, m)) ∧
    (∀ x, at_ k m = (Ok x, m) →
       iterator_deref m it = Ok (k, x) ∧
       bucketIt it = hasher m k mod capacity m).
Proof.
  intros [Hi Hload]%reachable_wf. destruct (at_total m k Hi) as [[x Hx]|Hnone].
  - pose proof Hx as Hin. apply (at_Ok m k x Hi) in Hin.
    pose proof (inv_capacity m Hi) as Hc.
    destruct (find_present m k x Hi Hin) as (it & Hfind & Hne & Hderef).
    exists it. split; [done|]. split.
    + rewrite Hne, Hx. split; intros; done.
    + intros x' Hx'. rewrite Hx in Hx'. injection Hx' as <-. split; [done|].
      unfold find in Hfind. rewrite (bucketIndex_ok m k Hc) in Hfind.
      simpl in Hfind. destruct (bucket_exists m k Hc) as [bucket Hb].
      rewrite (vec_at_ok _ _ _ Hb) in Hfind. simpl in Hfind.
      destruct (chain_find k bucket); simpl in Hfind.
      * by injection Hfind as <-.
      * injection Hfind as <-. by rewrite end_eq_end in Hne.
  - pose proof Hnone as Hnotin. apply (at_OutOfRange m k Hi) in Hnotin.
    exists (end_ m). split; [apply find_absent; [apply Hi|apply Hi|done]|].
    split; [by rewrite end_eq_end|]. intros x Hx. by rewrite Hnone in Hx.
Qed.

(** X3. Copy construction from a reachable map, given as many loop steps
    as the map has entries, returns that very map: the same hash function,
    the same buckets with the same entries in the same order, the same
    counter. *)
Theorem copy_constructor_exact ValueType_default fuel (other : Map) :
  reachable ValueType_default other → size other ≤ fuel →
  HashMap_copy fuel other = Ok other.
Proof.
  intros Hwf%reachable_wf Hfuel. apply HashMap_copy_exact; [done|].
  by rewrite <- (inv_count _ (proj1 Hwf)).
Qed.

(** X4. Copy assignment from another reachable map discards whatever the
    target held and leaves the target equal to the source; assignment of
    a map to itself leaves it as it is. *)
Theorem operator_assign_spec ValueType_default fuel (other this : Map) :
  reachable ValueType_default other → size other ≤ fuel →
  operator_assign fuel (Some other) this = Ok other ∧
  operator_assign fuel None this = Ok this.
Proof.
  intros Hwf%reachable_wf Hfuel. split; [|done].
  change (operator_assign fuel (Some other) this) with (HashMap_copy fuel other).
  apply HashMap_copy_exact; [done|].
  by rewrite <- (inv_count _ (proj1 Hwf)).
Qed.


(** X5. The constructor from a range or an initializer list always
    completes, whatever the items.  For [n] items, repeated keys counted,
    the map has [static_cast<size_t>(n * MaxLoadFactor + 1)] buckets,
    evaluated in double arithmetic, which is more than [n]; [at k] is the
    value of the first item with key [k] and throws when there is none;
    [size] is the number of distinct keys. *)
Theorem range_constructor_spec fuel (items : list MyPair) (h : KeyType → nat) :
  ∃ m, HashMap_range fuel items h = Ok m ∧
       hash_function m = h ∧
       capacity m =
         to_size_t (double_add (double_mul (of_size_t (length items)) MaxLoadFactor)
                               (double_of_Z 1)) ∧
       length items < capacity m ∧
       size m = length (remove_dups items.*1) ∧
       size m < capacity m ∧
       ∀ k, (at_ k m).1 = match chain_at k items with
                          | Some x => Ok x
                          | None => Err OutOfRange
                          end.
Proof.
  destruct (HashMap_range_spec fuel items h) as (m & Hrun & Hwf & Hh & Hcap & _).
  exists m. split; [done|]. split; [done|]. split; [done|].
  split; [unfold capacity; rewrite Hcap; apply grown_bucket_count_gt|].
  unfold HashMap_range, rehash, rehash_with in Hrun.
  cbn [data hasher mjoin app for_each] in Hrun.
  pose proof (grown_bucket_count_gt (length items)) as Hc.
  revert Hrun Hc. generalize (grown_bucket_count (length items)). intros c Hrun Hc.
  destruct (insert_all_into_empty _ _ _ c m ltac:(lia) Hrun)
    as (_ & _ & _ & _ & Hsize & Hlook).
  split; [done|]. split; [apply Hwf|done].
Qed.

(** X6. The range constructor of the second copy of the class, which
    inserts into a one-bucket table and lets [insert] grow it, completes
    as well and builds a map with the same lookups and the same [size] as
    the first copy's: first item per key, number of distinct keys. *)
Theorem range_constructor_unsized_spec fuel (items : list MyPair)
    (h : KeyType → nat) :
  ∃ m, HashMap2_range (S fuel) items h = Ok m ∧
       hash_function m = h ∧
       size m = length (remove_dups items.*1) ∧
       size m < capacity m ∧
       ∀ k, (at_ k m).1 = match chain_at k items with
                          | Some x => Ok x
                          | None => Err OutOfRange
                          end.
Proof.
  unfold HashMap2_range.
  pose proof (HashMap_default_wf h) as Hwf0.
  destruct (for_each_insert_total fuel items _ Hwf0) as [m Hrun].
  exists m. split; [done|].
  destruct (for_each_insert_Ok (S fuel) items _ m Hwf0 Hrun)
    as (Hwf & Hh & _ & Hkeys & Hlook).
  split; [done|]. split; [|split; [apply Hwf|]].
  - apply size_of_keys; [apply Hwf|]. intros k. rewrite (Hkeys k).
    split; [by intros [?%elem_of_nil|?] | auto].
  - intros k. rewrite at_fst_entries by apply Hwf. by rewrite (Hlook k).
Qed.

(** X7. The copy constructor of the second copy of the class completes on
    every reachable source and builds a map with the source's hash
    function, [size] and lookups; its bucket count is the one the inserts
    grew, with [size] below it. *)
Theorem copy_constructor_unsized_spec ValueType_default fuel (other : Map) :
  reachable ValueType_default other → size other ≤ S fuel →
  ∃ m, HashMap2_copy (S fuel) other = Ok m ∧
       hash_function m = hash_function other ∧
       size m = size other ∧
       size m < capacity m ∧
       ∀ k, (at_ k m).1 = (at_ k other).1.
Proof.
  intros [Hio Hloado]%reachable_wf Hfuel. unfold HashMap2_copy.
  rewrite (range_for_position (S fuel) other (begin other) (entries other))
    by (apply position_begin || by rewrite <- (inv_count _ Hio)).
  pose proof (HashMap_default_wf (hasher other)) as Hwf0.
  destruct (for_each_insert_total fuel (entries other) _ Hwf0) as [m Hrun].
  exists m. split; [done|].
  destruct (for_each_insert_Ok (S fuel) (entries other) _ m Hwf0 Hrun)
    as (Hwf & Hh & _ & Hkeys & Hlook).
  split; [done|]. split; [|split; [apply Hwf|]].
  - rewrite (size_of_keys m (entries other).*1); [|apply Hwf|].
    + rewrite <- (size_of_keys other (entries other).*1); [done|done|done].
    + intros k. rewrite (Hkeys k). split; [by intros [?%elem_of_nil|?] | auto].
  - intros k. rewrite !at_fst_entries by (done || apply Hwf). by rewrite (Hlook k).
Qed.

(** X8. [rehash] of a reachable map to any bucket count of at least one
    completes and keeps the hash function, [size] and every lookup; the
    new table has the requested bucket count when that exceeds [size], and
    in every case more buckets than entries. *)
Theorem rehash_preserves_map ValueType_default fuel bucketSize m :
  reachable ValueType_default m → 1 ≤ bucketSize →
  ∃ m', rehash (S fuel) bucketSize m = Ok m' ∧
        hash_function m' = hash_function m ∧
        size m' = size m ∧
        (∀ k, (at_ k m').1 = (at_ k m).1) ∧
        size m' < capacity m' ∧
        bucketSize ≤ capacity m' ∧
        (size m < bucketSize → capacity m' = bucketSize).
Proof.
  intros [Hi Hload]%reachable_wf Hpos.
  pose proof (wf_empty_table (hasher m) bucketSize Hpos) as Hwf0.
  destruct (for_each_insert_total fuel (entries m) _ Hwf0) as [m' Hrun].
  assert (Hrehash : rehash (S fuel) bucketSize m = Ok m').
  { unfold rehash, rehash_with. by rewrite for_each_join. }
  exists m'. split; [done|].
  destruct (for_each_insert_Ok (S fuel) (entries m) _ m' Hwf0 Hrun)
    as (Hwf & Hh & Hcap & Hkeys & Hlook).
  simpl in Hcap. rewrite length_replicate in Hcap.
  unfold entries at 2 in Hkeys. unfold entries at 2 in Hlook.
  simpl in Hkeys, Hlook. rewrite join_replicate_nil in Hkeys, Hlook.
  simpl in Hkeys, Hlook.
  split; [done|]. split; [|split; [|split; [apply Hwf|split; [done|]]]].
  - rewrite (size_of_keys m' (entries m).*1); [|apply Hwf|].
    + by rewrite <- (size_of_keys m (entries m).*1).
    + intros k. rewrite (Hkeys k). split; [by intros [?%elem_of_nil|?] | auto].
  - intros k. rewrite !at_fst_entries by (done || apply Hwf). by rewrite (Hlook k).
  - intros Hroom.
    destruct (rehash_spec (S fuel) bucketSize m (inv_unique _ Hi))
      as (m1 & Hrun1 & _ & _ & Hl & _).
    + by rewrite <- (inv_count _ Hi).
    + rewrite Hrehash in Hrun1. by injection Hrun1 as ->.
Qed.

(** X9. [rehash] to zero buckets: on a map without entries it leaves a
    table without buckets; on a map with at least one entry the first
    reinsertion takes a remainder modulo zero. *)
Theorem rehash_zero_buckets fuel m :
  rehash fuel 0 m =
    match entries m with
    | [] => Ok (mkHashMap (hasher m) [] 0)
    | _ :: _ => Err DivisionByZero
    end.
Proof.
  unfold rehash, rehash_with. rewrite for_each_join. unfold entries.
  destruct (mjoin (data m)) as [|v rest]; [done|].
  cbn [for_each]. by destruct fuel.
Qed.

Lemma erase_hasher fuel m k m' :
  inv m → erase fuel k m = Ok m' → hasher m' = hasher m.
Proof.
  intros Hi Hrun. destruct (decide (k ∈ (entries m).*1)) as [Hin|Hnotin].
  - apply list_elem_of_fmap in Hin as ([k' x] & -> & Hin).
    destruct (erase_present fuel m k' x Hi Hin) as (m1 & Hrun1 & _ & ? & _).
    simpl in Hrun. rewrite Hrun in Hrun1. by injection Hrun1 as ->.
  - rewrite erase_absent in Hrun by (done || apply Hi). by injection Hrun as <-.
Qed.

Lemma chain_at_insert_ne k k' x value (chain : list MyPair) j :
  chain !! j = Some (k, x) → k' ≠ k →
  chain_at k' (<[j := (k, value)]> chain) = chain_at k' chain.
Proof.
  revert j. induction chain as [|e chain IH]; intros j Hj Hne; [done|].
  destruct j as [|j]; simpl in *.
  - injection Hj as ->. simpl. by rewrite !decide_False by congruence.
  - by rewrite (IH j Hj Hne).
Qed.

Lemma iterator_assign_frame_wf m it k x value :
  wf m → iterator_deref m it = Ok (k, x) →
  ∃ m', iterator_assign m it value = Ok m' ∧ wf m' ∧
        hasher m' = hasher m ∧
        length (data m') = length (data m) ∧
        keyCount m' = keyCount m ∧
        (entries m').*1 = (entries m).*1 ∧
        chain_at k (entries m') = Some value ∧
        (∀ k', k' ≠ k → chain_at k' (entries m') = chain_at k' (entries m)).
Proof.
  intros Hwf Hderef.
  destruct (iterator_assign_at m it k x value Hwf Hderef)
    as (m' & Hrun & Hwf' & Hat & _).
  exists m'. split; [done|]. split; [done|].
  assert (Hk : chain_at k (entries m') = Some value).
  { apply chain_at_NoDup; [apply Hwf'|]. by apply (at_Ok m' k value (proj1 Hwf')). }
  apply iterator_assign_spec in Hrun as (b & j & chain & e & Hb & Hj & -> & ->).
  unfold iterator_deref in Hderef; simpl in Hderef.
  rewrite (vec_at_ok _ _ _ Hb) in Hderef; simpl in Hderef.
  rewrite Hj in Hderef. injection Hderef as ->.
  destruct (join_insert (data m) b chain (<[j := (k, value)]> chain) Hb)
    as (pre & post & Hold & Hnew).
  simpl in *. split; [done|]. split; [by rewrite length_insert|]. split; [done|].
  unfold entries in *. simpl in *. rewrite Hold, Hnew. split; [|split].
  - rewrite !fmap_app, list_fmap_insert. simpl.
    rewrite list_insert_id; [done|]. by rewrite list_lookup_fmap, Hj.
  - by rewrite <- Hnew.
  - intros k' Hne. rewrite !chain_at_app.
    by rewrite (chain_at_insert_ne k k' x value chain j Hj Hne).
Qed.

Lemma indexAccess_hasher ValueType_default fuel m k m' it :
  wf m → indexAccess ValueType_default fuel k m = Ok (m', it) →
  hasher m' = hasher m.
Proof.
  intros Hwf. unfold indexAccess.
  destruct (find k m) as [it0|e]; simpl; [|done].
  destruct (iterator_eq it0 (end_ m)).
  - destruct (insert fuel (k, ValueType_default) m) as [m1|e] eqn:Hins; simpl; [|done].
    destruct (find k m1) as [it1|e]; simpl; [|done].
    destruct (iterator_deref m1 it1); simpl; [|done].
    intros [= <- _]. by destruct (insert_Ok_wf fuel m _ m1 Hwf Hins) as (_ & ? & _).
  - simpl. destruct (iterator_deref m it0); simpl; [|done]. by intros [= <- _].
Qed.

(** X10. On every reachable map [erase] completes without rehashing: the
    bucket count and the hash function stay, the traversal afterwards is
    the traversal before with the entry for [k] left out, every other key
    keeps its value, and [at k] throws. *)
Theorem erase_keeps_table ValueType_default fuel m k :
  reachable ValueType_default m →
  ∃ m', erase fuel k m = Ok m' ∧
        capacity m' = capacity m ∧
        hash_function m' = hash_function m ∧
        mjoin (data m') = filter (λ e : MyPair, e.1 ≠ k) (mjoin (data m)) ∧
        (∀ k', k' ≠ k → (at_ k' m').1 = (at_ k' m).1) ∧
        (at_ k m').1 = Err OutOfRange.
Proof.
  intros Hwf%reachable_wf. pose proof Hwf as [Hi _].
  destruct (erase_total fuel m k Hi) as [m' Hrun]. exists m'.
  pose proof (erase_Ok_wf fuel m k m' Hwf Hrun) as [Hi' _].
  pose proof (erase_entries_filter fuel m k m' Hi Hrun) as Hfilter.
  split; [done|]. split; [by eapply erase_keeps_capacity|].
  split; [by eapply erase_hasher|]. split; [done|]. split.
  - intros k' Hne. rewrite !at_fst_entries by done.
    by rewrite Hfilter, chain_at_filter_ne.
  - rewrite at_fst_entries by done. by rewrite Hfilter, chain_at_filter_eq.
Qed.

(** X11. A write through a dereferenceable iterator of a reachable map, or
    through the reference [operator[]] returned, changes the value of that
    one entry: [at] of its key returns the new value, every other key
    keeps its value, and [size], the bucket count and the order of the
    keys in the traversal stay. *)
Theorem iterator_assign_frame ValueType_default m it k x value :
  reachable ValueType_default m → iterator_deref m it = Ok (k, x) →
  ∃ m', iterator_assign m it value = Ok m' ∧
        at_ k m' = (Ok value, m') ∧
        (∀ k', k' ≠ k → (at_ k' m').1 = (at_ k' m).1) ∧
        size m' = size m ∧ capacity m' = capacity m ∧
        (mjoin (data m')).*1 = (mjoin (data m)).*1.
Proof.
  intros Hwf%reachable_wf Hderef.
  destruct (iterator_assign_frame_wf m it k x value Hwf Hderef)
    as (m' & Hrun & Hwf' & _ & Hcap & Hsize & Hkeys & Hk & Hother).
  exists m'. split; [done|]. split; [|split; [|done]].
  - apply (at_Ok m' k value (proj1 Hwf')). by apply chain_at_Some_elem.
  - intros k' Hne. rewrite !at_fst_entries by (apply Hwf || apply Hwf').
    by rewrite (Hother k' Hne).
Qed.

(** X12. The statement [m[k] = value] on a reachable map completes and is
    an insert-or-overwrite: afterwards [at k] returns [value], every other
    key has the value it had, and [size] has grown by one exactly when [k]
    was absent. *)
Theorem index_store_spec ValueType_default fuel m k value :
  reachable ValueType_default m →
  ∃ m1 it m2,
    indexAccess ValueType_default (S fuel) k m = Ok (m1, it) ∧
    iterator_assign m1 it value = Ok m2 ∧
    at_ k m2 = (Ok value, m2) ∧
    (∀ k', k' ≠ k → (at_ k' m2).1 = (at_ k' m).1) ∧
    size m2 = match (at_ k m).1 with
              | Ok _ => size m
              | Err _ => S (size m)
              end.
Proof.
  intros Hwf%reachable_wf. pose proof Hwf as [Hi _].
  destruct (at_total m k Hi) as [[x Hx]|Hnone].
  - pose proof Hx as Hin. apply (at_Ok m k x Hi) in Hin.
    destruct (indexAccess_present ValueType_default (S fuel) m k x Hi Hin)
      as (it & Hidx & Hderef).
    destruct (iterator_assign_frame_wf m it k x value Hwf Hderef)
      as (m2 & Hrun & Hwf2 & _ & _ & Hsize & _ & Hk & Hother).
    exists m, it, m2. split; [done|]. split; [done|]. split; [|split].
    + apply (at_Ok m2 k value (proj1 Hwf2)). by apply chain_at_Some_elem.
    + intros k' Hne. rewrite !at_fst_entries by (done || apply Hwf2).
      by rewrite (Hother k' Hne).
    + by rewrite Hx.
  - pose proof Hnone as Hnotin. apply (at_OutOfRange m k Hi) in Hnotin.
    destruct (insert_spec fuel m (k, ValueType_default) Hwf)
      as (m1 & Hins & Hwf1 & _ & [[Hin _]|(_ & Hperm & _)]); [done|].
    assert (Hin1 : (k, ValueType_default) ∈ entries m1).
    { rewrite Hperm. apply elem_of_cons. auto. }
    destruct (indexAccess_absent ValueType_default (S fuel) m k m1
                Hi Hnotin Hins (proj1 Hwf1) Hin1) as (it & Hidx & Hderef).
    destruct (iterator_assign_frame_wf m1 it k _ value Hwf1 Hderef)
      as (m2 & Hrun & Hwf2 & _ & _ & Hsize & _ & Hk & Hother).
    exists m1, it, m2. split; [done|]. split; [done|]. split; [|split].
    + apply (at_Ok m2 k value (proj1 Hwf2)). by apply chain_at_Some_elem.
    + intros k' Hne. rewrite !at_fst_entries by (done || apply Hwf1 || apply Hwf2).
      rewrite (Hother k' Hne).
      rewrite (insert_lookup (S fuel) m (k, ValueType_default) m1 k' Hwf Hins).
      simpl. destruct (chain_at k' (entries m)); [done|].
      by rewrite decide_False by congruence.
    + rewrite Hnone. simpl. unfold size. rewrite Hsize.
      rewrite (inv_count _ (proj1 Hwf1)), Hperm. simpl.
      by rewrite <- (inv_count _ Hi).
Qed.

(** X13. On every reachable map [empty()] is true exactly when [at]
    throws for every key, exactly when [begin()] is [end()], and exactly
    when the table holds no entry. *)
Theorem empty_spec ValueType_default m :
  reachable ValueType_default m →
  (empty m = true ↔ ∀ k, at_ k m = (Err OutOfRange, m)) ∧
  (empty m = true ↔ begin m = end_ m) ∧
  (empty m = true ↔ mjoin (data m) = []).
Proof.
  intros [Hi _]%reachable_wf.
  assert (Hempty : empty m = true ↔ entries m = []).
  { unfold empty, size. rewrite bool_decide_eq_true, (inv_count _ Hi).
    apply length_zero_iff_nil. }
  split; [|split; [|done]].
  - rewrite Hempty. split.
    + intros Hnil k. apply (at_OutOfRange m k Hi). rewrite Hnil.
      by intros ?%elem_of_nil.
    + intros Hall. destruct (entries m) as [|[k x] rest] eqn:E; [done|].
      specialize (Hall k). apply (at_OutOfRange m k Hi) in Hall.
      exfalso. apply Hall. rewrite E. simpl. apply elem_of_cons. auto.
  - rewrite Hempty. pose proof (position_begin m) as Hpos. split.
    + intros Hnil. rewrite Hnil in Hpos. by apply position_nil.
    + intros Hbegin. rewrite Hbegin in Hpos.
      apply position_inv in Hpos as [[_ ?]|(b & j & chain & _ & _ & Heq & _)];
        [done|]. unfold end_ in Heq. discriminate Heq.
Qed.

(** X14. On every reachable map, inserting an absent key and erasing it
    again gives back every lookup and [size]; the bucket count is the one
    the insert left, never below the one before. *)
Theorem insert_then_erase ValueType_default fuel m k (x : ValueType) :
  reachable ValueType_default m → at_ k m = (Err OutOfRange, m) →
  ∃ m1 m2, insert (S fuel) (k, x) m = Ok m1 ∧
           erase fuel k m1 = Ok m2 ∧
           size m2 = size m ∧
           (∀ k', (at_ k' m2).1 = (at_ k' m).1) ∧
           capacity m2 = capacity m1 ∧ capacity m ≤ capacity m2.
Proof.
  intros Hwf%reachable_wf Hnone. pose proof Hwf as [Hi _].
  pose proof Hnone as Hnotin. apply (at_OutOfRange m k Hi) in Hnotin.
  destruct (insert_spec fuel m (k, x) Hwf)
    as (m1 & Hins & Hwf1 & _ & [[Hin _]|(_ & Hperm & _)]); [done|].
  pose proof Hwf1 as [Hi1 _].
  assert (Hin1 : (k, x) ∈ entries m1).
  { rewrite Hperm. apply elem_of_cons. auto. }
  destruct (erase_present fuel m1 k x Hi1 Hin1)
    as (m2 & Herase & Hi2 & _ & Hcap & Hk & _).
  pose proof (erase_entries_filter fuel m1 k m2 Hi1 Herase) as Hfilter.
  pose proof (insert_capacity_mono (S fuel) m (k, x) m1 Hwf Hins) as Hmono.
  exists m1, m2. split; [done|]. split; [done|]. split; [|split; [|split]].
  - unfold size. rewrite Hk, (inv_count _ Hi1), Hperm. simpl.
    by rewrite <- (inv_count _ Hi).
  - intros k'. rewrite !at_fst_entries by done. rewrite Hfilter.
    destruct (decide (k' = k)) as [->|Hne].
    + rewrite chain_at_filter_eq. apply chain_at_None in Hnotin. by rewrite Hnotin.
    + rewrite chain_at_filter_ne by done.
      rewrite (insert_lookup (S fuel) m (k, x) m1 k' Hwf Hins). simpl.
      destruct (chain_at k' (entries m)); [done|].
      by rewrite decide_False by congruence.
  - done.
  - unfold capacity. lia.
Qed.

(** X15. No member other than copy assignment replaces the hash function
    of a reachable map: what [hash_function()] returns is the same after
    [insert], [erase], [operator[]], a write through an iterator and
    [clear]. *)
Theorem hash_function_stable ValueType_default m :
  reachable ValueType_default m →
  (∀ fuel v m', insert fuel v m = Ok m' → hash_function m' = hash_function m) ∧
  (∀ fuel k m', erase fuel k m = Ok m' → hash_function m' = hash_function m) ∧
  (∀ fuel k m' it, indexAccess ValueType_default fuel k m = Ok (m', it) →
     hash_function m' = hash_function m) ∧
  (∀ it value m', iterator_assign m it value = Ok m' →
     hash_function m' = hash_function m) ∧
  hash_function (clear m) = hash_function m.
Proof.
  intros Hwf%reachable_wf. split; [|split; [|split; [|split; [|done]]]].
  - intros fuel v m' Hrun. by destruct (insert_Ok_wf fuel m v m' Hwf Hrun) as (_ & ? & _).
  - intros fuel k m' Hrun. eapply erase_hasher; [apply Hwf|done].
  - intros fuel k m' it Hrun. by eapply indexAccess_hasher.
  - intros it value m' (b & j & chain & e & _ & _ & _ & ->)%iterator_assign_spec.
    done.
Qed.

(** X16. [operator++] on an iterator that can be dereferenced, in any
    map, returns [end()] or an iterator that can be dereferenced: it never
    stops in an empty bucket or past a chain.  On [end()] it returns
    [end()]. *)
Theorem iterator_incr_dereferenceable m it v :
  iterator_deref m it = Ok v →
  ∃ it', iterator_incr m it = Ok it' ∧
         (it' = end_ m ∨ ∃ v', iterator_deref m it' = Ok v') ∧
         iterator_incr m (end_ m) = Ok (end_ m).
Proof.
  intros [rest Hpos]%deref_position.
  destruct (position_cons m it v rest Hpos) as (_ & _ & it' & Hincr & Hpos').
  exists it'. split; [done|]. split.
  - destruct rest as [|v' rest'].
    + left. by apply position_nil.
    + right. exists v'. by destruct (position_cons m it' v' rest' Hpos') as (_ & ? & _).
  - unfold iterator_incr, end_. simpl. by rewrite decide_True.
Qed.

(** X18. In any map [begin()] is [end()] when the table holds no entry,
    and otherwise differs from [end()] and dereferences to the first
    entry of the first non-empty bucket. *)
Theorem begin_first_entry m :
  match mjoin (data m) with
  | [] => begin m = end_ m
  | v :: _ =>
      iterator_eq (begin m) (end_ m) = false ∧
      iterator_deref m (begin m) = Ok v ∧
      elementIt (begin m) = Some 0 ∧
      ∀ b chain, b < bucketIt (begin m) → data m !! b = Some chain → chain = []
  end.
Proof.
  pose proof (position_begin m) as Hpos. unfold entries in Hpos.
  destruct (mjoin (data m)) as [|v rest] eqn:E.
  - by apply position_nil.
  - destruct (position_cons m _ v rest Hpos) as (Hne & Hderef & _).
    split; [done|]. split; [done|].
    apply position_inv in Hpos as [[_ ?]|(b & j & chain & Hb & Hj & Heq & Hrest)];
      [done|].
    assert (Hscan : ∀ (l : list (list MyPair)) c i,
              c ≤ i → i < begin_scan l c → l !! (i - c) = Some []).
    { clear. induction l as [|[|e chain] l IH]; intros c i Hc Hi; simpl in *; try lia.
      destruct (decide (i = c)) as [->|Hne].
      - by rewrite Nat.sub_diag.
      - replace (i - c) with (S (i - S c)) by lia. simpl. apply IH; lia. }
    unfold begin in *. case_decide as Hend.
    + unfold end_ in Heq. discriminate Heq.
    + simpl. split; [done|]. intros b' chain' Hlt Hb'.
      specialize (Hscan (data m) 0 b' ltac:(lia) Hlt).
      rewrite Nat.sub_0_r in Hscan. congruence.
Qed.

End Verification.

(** ** The double arithmetic against the Standard Library's binary64 *)

(** The literal [1.618033988] denotes the double nearest to it: the
    significand has 53 bits and the distance is at most half a unit in the
    last place. *)
Lemma MaxLoadFactor_nearest :
  (2 ^ 52 <= mantissa MaxLoadFactor < 2 ^ 53)%Z ∧
  exponent MaxLoadFactor = (-52)%Z ∧
  (Qabs (double_value MaxLoadFactor - (1618033988 # 1000000000)) <= double_eps)%Q.
Proof. split; [by vm_compute|]. split; [reflexivity|]. by vm_compute. Qed.

(** [keyCount * MaxLoadFactor + 1], truncated, on counts small and large. *)
Example grown_bucket_count_binary64 :
  (λ z, Some (double_trunc
                (double_add (double_mul (double_of_Z z) MaxLoadFactor)
                            (double_of_Z 1))))
    <$> [0; 1; 2; 3; 4; 5; 10; 100; 15125249; 24473167; 4294967295;
         9007199254740993; 18446744073709551615]%Z
  = binary64_grown_bucket_count
    <$> [0; 1; 2; 3; 4; 5; 10; 100; 15125249; 24473167; 4294967295;
         9007199254740993; 18446744073709551615]%Z.
Proof. vm_compute. reflexivity. Qed.

(** [keyCount * MinLoadFactor < bucket.size()] on pairs on both sides of
    the boundary. *)
Example shrink_check_binary64 :
  (λ p : Z * Z, double_lt (double_mul (double_of_Z p.1) MinLoadFactor)
                          (double_of_Z p.2))
    <$> [(0, 0); (0, 1); (0, 3); (1, 2); (1, 3); (3, 7); (3, 8);
         (1000, 2618); (1000, 2619); (24473167, 64071222);
         (24473167, 64071223); (9007199254740993, 23580770940073262)]%Z
  = (λ p : Z * Z, binary64_shrink_check p.1 p.2)
    <$> [(0, 0); (0, 1); (0, 3); (1, 2); (1, 3); (3, 7); (3, 8);
         (1000, 2618); (1000, 2619); (24473167, 64071222);
         (24473167, 64071223); (9007199254740993, 23580770940073262)]%Z.
Proof. vm_compute. reflexivity. Qed.

(** ** The map that grows at 24473167 entries *)

Lemma numbered_keys first len : (numbered first len).*1 = seq first len.
Proof.
  unfold numbered.
  induction (seq first len) as [|x l IH]; simpl; [done|]. by f_equal.
Qed.

Lemma numbered_length first len : length (numbered first len) = len.
Proof. unfold numbered. by rewrite length_fmap, length_seq. Qed.

Section Reach.
Context {KeyType ValueType : Type} `{EqDecision KeyType}.

Lemma reachable_for_each_insert (d : ValueType) fuel
    (items : list (KeyType * ValueType)) (m m' : HashMap) :
  reachable d m → for_each (insert fuel) items m = Ok m' → reachable d m'.
Proof.
  revert m. induction items as [|v items IH]; intros m Hm Hrun; simpl in Hrun.
  - by injection Hrun as <-.
  - destruct (insert fuel v m) as [m1|e] eqn:E; [|done].
    apply (IH m1); [|done]. by eapply reach_insert.
Qed.
End Reach.

Lemma filled_grows (n1 n2 : nat) :
  n1 ≤ n2 → S n2 = grown_bucket_count n1 →
  ∃ m m', filled n1 n2 = Ok m ∧ reachable 0 m ∧
          size m = n2 ∧ capacity m = S n2 ∧
          insert 1 (n2, 0) m = Ok m' ∧
          size m' = S n2 ∧
          capacity m' = grown_bucket_count (S n2).
Proof.
  intros Hle Hcap.
  destruct (HashMap_range_spec 0 (numbered 0 n1) identity_hash)
    as (m1 & Hrun1 & [Hi1 Hload1] & Hh1 & Hl1 & Hp1).
  rewrite numbered_length in Hl1.
  specialize (Hp1 ltac:(rewrite numbered_keys; apply NoDup_seq)).
  assert (Hk1 : keyCount m1 = n1).
  { by rewrite (inv_count _ Hi1), Hp1, numbered_length. }
  destruct (for_each_insert 0 (numbered n1 (n2 - n1)) m1 Hi1)
    as (m & Hrun & Hi & Hh & Hl & _ & Hp).
  { rewrite numbered_length. lia. }
  assert (Hent : entries m ≡ₚ numbered 0 n1 ++ numbered n1 (n2 - n1)).
  { rewrite <- Hp1. apply Hp.
    - rewrite numbered_keys. apply NoDup_seq.
    - intros k. rewrite Hp1, !numbered_keys, !elem_of_seq. lia. }
  assert (Hk : keyCount m = n2).
  { rewrite (inv_count _ Hi), Hent, length_app, !numbered_length. lia. }
  assert (Hreach : reachable 0 m).
  { apply (reachable_for_each_insert 0 0 (numbered n1 (n2 - n1)) m1); [|done].
    by eapply reach_range. }
  assert (Hnew : (n2, 0).1 ∉ (entries m).*1).
  { rewrite Hent, fmap_app, !numbered_keys, elem_of_app, !elem_of_seq.
    simpl. lia. }
  destruct (insert_spec 0 m (n2, 0)) as (m' & Hins & [Hi' _] & _ & Hcases).
  { split; [done|]. rewrite Hk, Hl, Hl1. lia. }
  destruct Hcases as [[Hin _]|(_ & Hperm & Hgrow)]; [done|].
  rewrite decide_True in Hgrow by (rewrite Hk, Hl, Hl1; lia).
  exists m, m'. split; [unfold filled; rewrite Hrun1; exact Hrun|].
  split; [done|].
  unfold size, capacity. split; [done|]. split; [by rewrite Hl, Hl1|].
  split; [done|]. split.
  - rewrite (inv_count _ Hi'), Hperm. simpl. by rewrite <- (inv_count _ Hi), Hk.
  - by rewrite Hgrow, Hk.
Qed.

Lemma grown_bucket_count_Z (z : Z) :
  (0 <= z)%Z →
  Z.of_nat (grown_bucket_count (Z.to_nat z)) =
  Z.max 0 (double_trunc (double_add (double_mul (double_of_Z z) MaxLoadFactor)
                      (double_of_Z 1))).
Proof.
  intros Hz. unfold grown_bucket_count, to_size_t, of_size_t.
  rewrite (Z2Nat.id z) by exact Hz. lia.
Qed.

Lemma filled_grows_Z (z1 z2 z3 z4 : Z) :
  (0 <= z1 <= z2)%Z → z3 = (z2 + 1)%Z →
  Z.of_nat (grown_bucket_count (Z.to_nat z1)) = z3 →
  Z.of_nat (grown_bucket_count (Z.to_nat z3)) = z4 →
  ∃ m m', filled (Z.to_nat z1) (Z.to_nat z2) = Ok m ∧ reachable 0 m ∧
          Z.of_nat (size m) = z2 ∧ Z.of_nat (capacity m) = z3 ∧
          insert 1 (Z.to_nat z2, 0) m = Ok m' ∧
          Z.of_nat (size m') = z3 ∧
          Z.of_nat (capacity m') = z4.
Proof.
  intros Hz -> H1 H2.
  destruct (filled_grows (Z.to_nat z1) (Z.to_nat z2))
    as (m & m' & Hrun & Hreach & Hsize & Hcap & Hins & Hsize' & Hcap');
    [lia|lia|].
  exists m, m'. rewrite Hsize, Hcap, Hsize', Hcap'.
  split; [done|]. split; [done|]. split; [lia|]. split; [lia|].
  split; [done|]. split; [lia|].
  rewrite <- H2. do 2 f_equal. lia.
Qed.

(** C2, the floor formula refuted.  A map of 24473166 entries in 24473167
    buckets, built by the range constructor from 15125249 entries and
    [insert] of the further ones, takes one more entry.  The grow rehash
    leaves 39598417 buckets, where the floor of the exact product gives
    39598416, both with the decimal constant and with the double nearest
    to it. *)
Lemma insert_grows_past_floor_formula :
  ∃ (m m' : @HashMap nat nat),
    filled (Z.to_nat 15125249) (Z.to_nat 24473166) = Ok m ∧
    reachable 0 m ∧
    Z.of_nat (size m) = 24473166%Z ∧
    Z.of_nat (capacity m) = 24473167%Z ∧
    insert 1 (Z.to_nat 24473166, 0) m = Ok m' ∧
    Z.of_nat (size m') = 24473167%Z ∧
    Z.of_nat (capacity m') = 39598417%Z ∧
    floor_formula_capacity (size m') = 39598416%Z ∧
    (Qfloor (inject_Z (Z.of_nat (size m')) * double_value MaxLoadFactor) + 1
     = 39598416)%Z ∧
    Z.of_nat (capacity m') ≠ floor_formula_capacity (size m').
Proof.
  destruct (filled_grows_Z 15125249 24473166 24473167 39598417)
    as (m & m' & Hrun & Hreach & Hsize & Hcap & Hins & Hsize' & Hcap').
  - lia.
  - reflexivity.
  - rewrite grown_bucket_count_Z by lia. vm_compute. reflexivity.
  - rewrite grown_bucket_count_Z by lia. vm_compute. reflexivity.
  - exists m, m'. unfold floor_formula_capacity. rewrite Hsize', Hcap'.
    split; [exact Hrun|]. split; [exact Hreach|]. split; [exact Hsize|].
    split; [exact Hcap|]. split; [exact Hins|].
    split; [reflexivity|]. split; [reflexivity|].
    split; [vm_compute; reflexivity|]. split; [vm_compute; reflexivity|].
    vm_compute. discriminate.
Qed.

(** ** The claims on the sample maps *)

(** C7, evaluated where it fails: after [insert ({3, 30})] on a freshly
    constructed map and [erase (3)], the map is empty and has two
    buckets. *)
Theorem erase_last_entry_leaves_two_buckets :
  insert 1 (3, 30) sample_default = Ok sample_one ∧
  ∃ m, erase 1 3 sample_one = Ok m ∧
       size m = 0 ∧ empty m = true ∧ capacity m = 2.
Proof. split; [reflexivity|]. eexists. split; [reflexivity|]. done. Qed.


Lemma sample_default_reachable : reachable 0 sample_default.
Proof. apply reach_default. Qed.

Lemma sample_one_reachable : reachable 0 sample_one.
Proof.
  apply (reach_insert 0 1 (3, 30) sample_default); [|reflexivity].
  apply sample_default_reachable.
Qed.

Lemma sample_three_reachable : reachable 0 sample_three.
Proof.
  apply (reach_insert 0 1 (7, 70)
           (mkHashMap identity_hash [[]; [(5, 50)]; []; [(3, 30)]] 2));
    [|reflexivity].
  apply (reach_insert 0 1 (5, 50) sample_one); [|reflexivity].
  apply sample_one_reachable.
Qed.

(** C1 on [sample_three]: key 3 is present, key 9 is not. *)
Lemma insert_first_write_wins_witness :
  reachable 0 sample_three ∧
  (∃ m', insert 0 (3, 31) sample_three = Ok m' ∧ m' = sample_three ∧
         at_ 3 m' = (Ok 30, m') ∧ size m' = size sample_three) ∧
  (∃ m', insert 1 (9, 90) sample_three = Ok m' ∧
         entries m' ≡ₚ (9, 90) :: entries sample_three ∧
         size m' = S (size sample_three) ∧
         at_ 9 m' = (Ok 90, m')).
Proof.
  split; [exact sample_three_reachable|]. split.
  - destruct (insert_first_write_wins 0 0 sample_three 3 30 31
                sample_three_reachable) as [Hpresent _].
    apply Hpresent. reflexivity.
  - destruct (insert_first_write_wins 0 0 sample_three 9 0 90
                sample_three_reachable) as [_ Habsent].
    apply Habsent. reflexivity.
Defined.

(** C2 on [sample_three], where the fourth entry fills the four buckets. *)
Lemma insert_load_factor_bound_witness :
  reachable 0 sample_three ∧
  (∃ m', insert 1 (9, 90) sample_three = Ok m') ∧
  (∀ fuel' m', insert fuel' (9, 90) sample_three = Ok m' →
     size m' < capacity m' ∧
     length (entries m') < capacity m' ∧
     ((9, 90).1 ∈ (entries sample_three).*1 → m' = sample_three) ∧
     (((9, 90).1 ∉ (entries sample_three).*1) →
      S (size sample_three) < capacity sample_three →
      size m' = S (size sample_three) ∧ capacity m' = capacity sample_three) ∧
     (((9, 90).1 ∉ (entries sample_three).*1) →
      capacity sample_three ≤ S (size sample_three) →
      size m' = S (size sample_three) ∧
      capacity m' =
        to_size_t (double_add (double_mul (of_size_t (size m')) MaxLoadFactor)
                              (double_of_Z 1)))).
Proof.
  split; [exact sample_three_reachable|].
  exact (insert_load_factor_bound 0 0 sample_three (9, 90) sample_three_reachable).
Defined.

(** C3 on [sample_three]. *)
Lemma iteration_complete_witness :
  reachable 0 sample_three ∧ size sample_three ≤ 3 ∧
  ∃ visited, traverse 3 sample_three = Ok visited ∧
    visited = mjoin (data sample_three) ∧
    length visited = size sample_three ∧
    NoDup visited.*1 ∧
    (∀ k x, (k, x) ∈ visited ↔ at_ k sample_three = (Ok x, sample_three)) ∧
    (empty sample_three = true →
     begin sample_three = end_ sample_three ∧
     iterator_eq (begin sample_three) (end_ sample_three) = true).
Proof.
  split; [exact sample_three_reachable|]. split; [simpl; lia|].
  apply (iteration_complete 0 3 sample_three sample_three_reachable).
  simpl; lia.
Defined.

(** C4 on [sample_three]. *)
Lemma at_spec_witness :
  reachable 0 sample_three ∧
  at_ 7 sample_three = (Ok 70, sample_three) ∧
  at_ 9 sample_three = (Err OutOfRange, sample_three).
Proof.
  split; [exact sample_three_reachable|]. split.
  - destruct (at_spec 0 sample_three 7 sample_three_reachable) as [Hpresent _].
    apply Hpresent. vm_compute. do 2 right. left.
  - destruct (at_spec 0 sample_three 9 sample_three_reachable) as (_ & Habsent & _).
    apply Habsent. vm_compute. intros Hin.
    repeat (apply elem_of_cons in Hin as [Hin|Hin]; [discriminate Hin|]).
    by apply elem_of_nil in Hin.
Defined.

(** C5 on [sample_default], the empty map, and on [sample_three]. *)
Lemma indexAccess_spec_witness :
  reachable 0 sample_default ∧ empty sample_default = true ∧
  (∃ m' it, indexAccess 0 1 9 sample_default = Ok (m', it) ∧
            size m' = 1 ∧ iterator_deref m' it = Ok (9, 0)) ∧
  (∃ it, indexAccess 0 0 7 sample_three = Ok (sample_three, it) ∧
         iterator_deref sample_three it = Ok (7, 70)).
Proof.
  split; [exact sample_default_reachable|]. split; [reflexivity|]. split.
  - destruct (indexAccess_spec 0 0 sample_default 9 sample_default_reachable)
      as (_ & _ & _ & _ & Hempty).
    apply Hempty. reflexivity.
  - destruct (indexAccess_spec 0 0 sample_three 7 sample_three_reachable)
      as (_ & Hpresent & _).
    apply Hpresent. reflexivity.
Defined.


(** C8 on [sample_three] and key 3. *)
Lemma erase_then_insert_witness :
  reachable 0 sample_three ∧ at_ 3 sample_three = (Ok 30, sample_three) ∧
  ∃ m1 m2, erase 0 3 sample_three = Ok m1 ∧
           insert 1 (3, 33) m1 = Ok m2 ∧
           at_ 3 m2 = (Ok 33, m2) ∧
           size m2 = size sample_three.
Proof.
  split; [exact sample_three_reachable|]. split; [reflexivity|].
  apply (erase_then_insert 0 0 sample_three 3 30 33 sample_three_reachable).
  reflexivity.
Defined.

(** C9 on [sample_three]. *)
Lemma bucketIndex_never_divides_by_zero_witness :
  reachable 0 sample_three ∧
  1 ≤ capacity sample_three ∧
  (∀ key, bucketIndex sample_three key =
            Ok (hasher sample_three key mod capacity sample_three)) ∧
  (∀ fuel v, ∃ m', insert (S fuel) v sample_three = Ok m').
Proof.
  split; [exact sample_three_reachable|].
  destruct (bucketIndex_never_divides_by_zero 0 sample_three sample_three_reachable)
    as (Hcap & Hindex & Hinsert & _).
  split; [exact Hcap|]. split; [exact Hindex | exact Hinsert].
Defined.

(** C10 on [sample_three], where inserting key 9 rehashes. *)
Lemma insert_frame_witness :
  reachable 0 sample_three ∧
  ∃ m', insert 1 (9, 90) sample_three = Ok m' ∧
        ∀ k', k' ≠ 9 → (at_ k' m').1 = (at_ k' sample_three).1.
Proof.
  split; [exact sample_three_reachable|].
  exact (insert_frame 0 0 sample_three 9 90 sample_three_reachable).
Defined.

(** A table resized to no bucket at all would make the first reinsertion
    divide by zero: the error is observable in this model. *)
Example rehash_to_zero_buckets_divides :
  rehash 1 0 sample_one = Err DivisionByZero.
Proof. reflexivity. Qed.

(** The scenario of the literal list with a repeated key. *)
Example HashMap_range_repeated_key :
  ∃ m, HashMap_range 1 [(1, 10); (2, 20); (1, 30)] identity_hash = Ok m ∧
       size m = 2 ∧ at_ 1 m = (Ok 10, m).
Proof. eexists. split; [vm_compute; reflexivity|]. done. Qed.

(** ** The further theorems on the sample maps *)

(** X1 on [sample_three]. *)
Lemma reachable_invariants_witness :
  reachable 0 sample_three ∧
  1 ≤ capacity sample_three ∧
  size sample_three = length (mjoin (data sample_three)) ∧
  size sample_three < capacity sample_three ∧
  NoDup (mjoin (data sample_three)).*1 ∧
  (∀ i chain k x, data sample_three !! i = Some chain → (k, x) ∈ chain →
     hasher sample_three k mod capacity sample_three = i).
Proof.
  split; [exact sample_three_reachable|].
  exact (reachable_invariants 0 sample_three sample_three_reachable).
Defined.

(** X2 on [sample_three]. *)
Lemma find_agrees_with_at_witness :
  reachable 0 sample_three ∧
  ∃ it, find 7 sample_three = Ok it ∧
    (iterator_eq it (end_ sample_three) = true ↔
     at_ 7 sample_three = (Err OutOfRange, sample_three)) ∧
    (∀ x, at_ 7 sample_three = (Ok x, sample_three) →
       iterator_deref sample_three it = Ok (7, x) ∧
       bucketIt it = hasher sample_three 7 mod capacity sample_three).
Proof.
  split; [exact sample_three_reachable|].
  exact (find_agrees_with_at 0 sample_three 7 sample_three_reachable).
Defined.

(** X3 on [sample_three]. *)
Lemma copy_constructor_exact_witness :
  reachable 0 sample_three ∧ size sample_three ≤ 3 ∧
  HashMap_copy 3 sample_three = Ok sample_three.
Proof.
  split; [exact sample_three_reachable|]. split; [simpl; lia|].
  apply (copy_constructor_exact 0 3 sample_three sample_three_reachable).
  simpl; lia.
Defined.

(** X4: [sample_one = sample_three], and [sample_one = sample_one]. *)
Lemma operator_assign_spec_witness :
  reachable 0 sample_three ∧ size sample_three ≤ 3 ∧
  operator_assign 3 (Some sample_three) sample_one = Ok sample_three ∧
  operator_assign 3 None sample_one = Ok sample_one.
Proof.
  split; [exact sample_three_reachable|]. split; [simpl; lia|].
  apply (operator_assign_spec 0 3 sample_three sample_one sample_three_reachable).
  simpl; lia.
Defined.

(** X7 on [sample_three]. *)
Lemma copy_constructor_unsized_spec_witness :
  reachable 0 sample_three ∧ size sample_three ≤ 3 ∧
  ∃ m, HashMap2_copy 3 sample_three = Ok m ∧
       hash_function m = hash_function sample_three ∧
       size m = size sample_three ∧
       size m < capacity m ∧
       ∀ k, (at_ k m).1 = (at_ k sample_three).1.
Proof.
  split; [exact sample_three_reachable|]. split; [simpl; lia|].
  apply (copy_constructor_unsized_spec 0 2 sample_three sample_three_reachable).
  simpl; lia.
Defined.

(** X8 on [sample_three] and two buckets, fewer than its three entries. *)
Lemma rehash_preserves_map_witness :
  reachable 0 sample_three ∧ 1 ≤ 2 ∧
  ∃ m', rehash 1 2 sample_three = Ok m' ∧
        hash_function m' = hash_function sample_three ∧
        size m' = size sample_three ∧
        (∀ k, (at_ k m').1 = (at_ k sample_three).1) ∧
        size m' < capacity m' ∧
        2 ≤ capacity m' ∧
        (size sample_three < 2 → capacity m' = 2).
Proof.
  split; [exact sample_three_reachable|]. split; [lia|].
  apply (rehash_preserves_map 0 0 2 sample_three sample_three_reachable). lia.
Defined.

(** X10 on [sample_three]. *)
Lemma erase_keeps_table_witness :
  reachable 0 sample_three ∧
  ∃ m', erase 0 3 sample_three = Ok m' ∧
        capacity m' = capacity sample_three ∧
        hash_function m' = hash_function sample_three ∧
        mjoin (data m') =
          filter (λ e : nat * nat, e.1 ≠ 3) (mjoin (data sample_three)) ∧
        (∀ k', k' ≠ 3 → (at_ k' m').1 = (at_ k' sample_three).1) ∧
        (at_ 3 m').1 = Err OutOfRange.
Proof.
  split; [exact sample_three_reachable|].
  exact (erase_keeps_table 0 0 sample_three 3 sample_three_reachable).
Defined.

(** X11 on [sample_three] and the second node of bucket 3. *)
Lemma iterator_assign_frame_witness :
  reachable 0 sample_three ∧
  iterator_deref sample_three (mkIterator 3 (Some 1)) = Ok (7, 70) ∧
  ∃ m', iterator_assign sample_three (mkIterator 3 (Some 1)) 77 = Ok m' ∧
        at_ 7 m' = (Ok 77, m') ∧
        (∀ k', k' ≠ 7 → (at_ k' m').1 = (at_ k' sample_three).1) ∧
        size m' = size sample_three ∧ capacity m' = capacity sample_three ∧
        (mjoin (data m')).*1 = (mjoin (data sample_three)).*1.
Proof.
  split; [exact sample_three_reachable|]. split; [reflexivity|].
  apply (iterator_assign_frame 0 sample_three (mkIterator 3 (Some 1)) 7 70 77
           sample_three_reachable).
  reflexivity.
Defined.

(** X12 on [sample_three] and the absent key 9. *)
Lemma index_store_spec_witness :
  reachable 0 sample_three ∧
  ∃ m1 it m2,
    indexAccess 0 1 9 sample_three = Ok (m1, it) ∧
    iterator_assign m1 it 99 = Ok m2 ∧
    at_ 9 m2 = (Ok 99, m2) ∧
    (∀ k', k' ≠ 9 → (at_ k' m2).1 = (at_ k' sample_three).1) ∧
    size m2 = match (at_ 9 sample_three).1 with
              | Ok _ => size sample_three
              | Err _ => S (size sample_three)
              end.
Proof.
  split; [exact sample_three_reachable|].
  exact (index_store_spec 0 0 sample_three 9 99 sample_three_reachable).
Defined.

(** X13 on [sample_default]. *)
Lemma empty_spec_witness :
  reachable 0 sample_default ∧
  (empty sample_default = true ↔
   ∀ k, at_ k sample_default = (Err OutOfRange, sample_default)) ∧
  (empty sample_default = true ↔ begin sample_default = end_ sample_default) ∧
  (empty sample_default = true ↔ mjoin (data sample_default) = []).
Proof.
  split; [exact sample_default_reachable|].
  exact (empty_spec 0 sample_default sample_default_reachable).
Defined.

(** X14 on [sample_three] and the absent key 9, whose insert rehashes. *)
Lemma insert_then_erase_witness :
  reachable 0 sample_three ∧
  at_ 9 sample_three = (Err OutOfRange, sample_three) ∧
  ∃ m1 m2, insert 1 (9, 90) sample_three = Ok m1 ∧
           erase 0 9 m1 = Ok m2 ∧
           size m2 = size sample_three ∧
           (∀ k', (at_ k' m2).1 = (at_ k' sample_three).1) ∧
           capacity m2 = capacity m1 ∧ capacity sample_three ≤ capacity m2.
Proof.
  split; [exact sample_three_reachable|]. split; [reflexivity|].
  apply (insert_then_erase 0 0 sample_three 9 90 sample_three_reachable).
  reflexivity.
Defined.

(** X15 on [sample_three]. *)
Lemma hash_function_stable_witness :
  reachable 0 sample_three ∧
  (∀ fuel v m', insert fuel v sample_three = Ok m' →
     hash_function m' = hash_function sample_three) ∧
  (∀ fuel k m', erase fuel k sample_three = Ok m' →
     hash_function m' = hash_function sample_three).
Proof.
  split; [exact sample_three_reachable|].
  destruct (hash_function_stable 0 sample_three sample_three_reachable)
    as (Hinsert & Herase & _).
  split; [exact Hinsert | exact Herase].
Defined.

(** X16 on [sample_three]: from the entry of bucket 1 to the first entry
    of bucket 3. *)
Lemma iterator_incr_dereferenceable_witness :
  iterator_deref sample_three (mkIterator 1 (Some 0)) = Ok (5, 50) ∧
  ∃ it', iterator_incr sample_three (mkIterator 1 (Some 0)) = Ok it' ∧
         (it' = end_ sample_three ∨
          ∃ v', iterator_deref sample_three it' = Ok v') ∧
         iterator_incr sample_three (end_ sample_three) = Ok (end_ sample_three).
Proof.
  split; [reflexivity|].
  apply (iterator_incr_dereferenceable sample_three (mkIterator 1 (Some 0)) (5, 50)).
  reflexivity.
Defined.
